(** * The single-slot event scheduler of printipi (src/scheduler.h)

    A shallow embedding of [Scheduler<Interface>]: the three fields of the
    class as a record, its member functions as functions on that record, and
    [eventLoop] as a fuelled loop over an explicit world that stands for the
    interface object, the monotonic clock and the sleeping primitive.  Every
    loop iteration leaves one entry in a log, and the properties of the
    scheduler are stated on that log. *)

From Stdlib Require Import ZArith List Bool Lia.
From Stdlib Require Ascii String.
Import ListNotations.
Open Scope Z_scope.

Set Implicit Arguments.

(** ** Declarations of headers that are not part of the sources *)

(** Modelled from the spec: the enumeration [OnIdleCpuIntervalT] is declared
    in a header that is missing (schedulerbase.h); the spec gives it two
    values, "intervalClass is one of Short or Wide". *)
Inductive OnIdleCpuIntervalT : Type :=
  | OnIdleCpuIntervalShort
  | OnIdleCpuIntervalWide.

Definition isWide (i : OnIdleCpuIntervalT) : bool :=
  match i with OnIdleCpuIntervalWide => true | OnIdleCpuIntervalShort => false end.

(** Modelled from the spec: [OutputEvent] (outputevent.h) and the clock's
    duration type are missing.  The spec describes a Scheduled Event as a
    value with a logical time, an opaque payload and "a distinguished empty
    state"; the scheduler uses only [isNull], [time] and the default
    constructor [OutputEvent()], which builds the empty event.  Times and
    durations are counted in ticks of [EventClockT]; [milliseconds n] is
    [duration_cast<EventClockT::duration>(std::chrono::milliseconds(n))]. *)
Class Platform : Type := {
  OutputEvent : Type;
  OutputEvent_new : OutputEvent;
  isNull : OutputEvent -> bool;
  time : OutputEvent -> Z;
  milliseconds : Z -> Z;
  isNull_new : isNull OutputEvent_new = true
}.

(** [int numShortIntervals]: a 32-bit signed counter.  Incrementing it past
    INT_MAX is written out as two's complement wrap-around, and [%] is C's
    truncating remainder [Z.rem]. *)
Definition wrap32 (x : Z) : Z := (x + 2 ^ 31) mod 2 ^ 32 - 2 ^ 31.

(** The interval class is Wide whenever the number of true results so far
    is a multiple of 2048; this holds on entry and after every entry of a
    log but a last one that breaks out. *)
Definition wideAtMultiple (i : OnIdleCpuIntervalT) (n : Z) : Prop :=
  n mod 2048 = 0 -> i = OnIdleCpuIntervalWide.

Section SchedulerModel.

Context {P : Platform}.

(** ** The class *)

(** The data members [MAX_SLEEP], [nextEvent] and [_doExit]; the member
    [interface] is the environment below. *)
Record Scheduler : Type := mkScheduler {
  MAX_SLEEP : Z;
  nextEvent : OutputEvent;
  _doExit : bool
}.

(** The public member functions through which code outside the class (the
    interface, called back from the loop) changes a scheduler. *)
Inductive Call : Type :=
  | CallQueue (evt : OutputEvent)
  | CallSetMaxSleep (duration : Z)
  | CallExitEventLoop.

Definition isExitCall (c : Call) : bool :=
  match c with CallExitEventLoop => true | _ => false end.

(** [void queue(const OutputEvent &evt) { this->nextEvent = evt; }] *)
Definition queue (evt : OutputEvent) (s : Scheduler) : Scheduler :=
  {| MAX_SLEEP := MAX_SLEEP s; nextEvent := evt; _doExit := _doExit s |}.

Definition setMaxSleep (duration : Z) (s : Scheduler) : Scheduler :=
  {| MAX_SLEEP := duration; nextEvent := nextEvent s; _doExit := _doExit s |}.

Definition setDefaultMaxSleep (s : Scheduler) : Scheduler :=
  setMaxSleep (milliseconds 40) s.

(** The constructor: [nextEvent] is default-constructed, [_doExit(false)],
    and the body calls [setDefaultMaxSleep()]. *)
Definition Scheduler_new : Scheduler :=
  setDefaultMaxSleep
    {| MAX_SLEEP := 0; nextEvent := OutputEvent_new; _doExit := false |}.

(** [bool isRoomInBuffer() const { return nextEvent.isNull(); }] *)
Definition isRoomInBuffer (s : Scheduler) : bool := isNull (nextEvent s).

(** [void exitEventLoop() { _doExit = true; }] *)
Definition exitEventLoop (s : Scheduler) : Scheduler :=
  {| MAX_SLEEP := MAX_SLEEP s; nextEvent := nextEvent s; _doExit := true |}.

(** [this->nextEvent = OutputEvent();] in [eventLoop] *)
Definition clearSlot (s : Scheduler) : Scheduler :=
  {| MAX_SLEEP := MAX_SLEEP s; nextEvent := OutputEvent_new; _doExit := _doExit s |}.

(** [_doExit = false;] at the end of [eventLoop] *)
Definition clearExit (s : Scheduler) : Scheduler :=
  {| MAX_SLEEP := MAX_SLEEP s; nextEvent := nextEvent s; _doExit := false |}.

Definition applyCall (s : Scheduler) (c : Call) : Scheduler :=
  match c with
  | CallQueue evt => queue evt s
  | CallSetMaxSleep d => setMaxSleep d s
  | CallExitEventLoop => exitEventLoop s
  end.

(** The calls made during one callback, in program order. *)
Definition applyCalls (cs : list Call) (s : Scheduler) : Scheduler :=
  fold_left applyCall cs s.

(** ** The environment *)

(** What the scheduler calls into.  [W] is the state of everything outside
    the scheduler: the interface object, the clock, the hardware.
    [interface_queue] and [interface_onIdleCpu] run arbitrary interface code,
    which may call the scheduler's public member functions; these calls are
    returned in program order.  [interface_onIdleCpu] is given what
    [isRoomInBuffer()] answers when the slice starts. *)
Record Env (W : Type) : Type := mkEnv {
  EventClockT_now : W -> Z;
  interface_schedTime : W -> Z -> Z;
  interface_queue : OutputEvent -> W -> list Call * W;
  interface_onIdleCpu : OnIdleCpuIntervalT -> bool -> W -> bool * list Call * W;
  SleepT_sleep_until : Z -> W -> W
}.

Section Loop.

Variable W : Type.
Variable env : Env W.

(** [isEventTime]: [interface.schedTime(evt.time()) <= EventClockT::now()] *)
Definition isEventTime (w : W) (evt : OutputEvent) : bool :=
  interface_schedTime env w (time evt) <=? EventClockT_now env w.

(** The time point that [sleepUntilEvent] hands to [SleepT::sleep_until]. *)
Definition sleepUntil (s : Scheduler) (w : W) (evt : OutputEvent) : Z :=
  let sleepUntil0 := EventClockT_now env w + MAX_SLEEP s in
  if negb (isNull evt) then
    let evtTime := interface_schedTime env w (time evt) in
    if evtTime <? sleepUntil0 then evtTime else sleepUntil0
  else sleepUntil0.

Definition sleepUntilEvent (s : Scheduler) (evt : OutputEvent) (w : W) : W :=
  SleepT_sleep_until env (sleepUntil s w evt) w.

(** The scheduler, the two locals of [eventLoop] and the world. *)
Record LoopState : Type := mkLoopState {
  sched : Scheduler;
  intervalT : OnIdleCpuIntervalT;
  numShortIntervals : Z;
  world : W
}.

(** What one iteration of the [while] loop did. *)
Record Iteration : Type := mkIteration {
  it_dispatched : option (OutputEvent * W);
      (* the event given to interface.queue and the world at that call *)
  it_room : bool;        (* isRoomInBuffer() between dispatch and idle slice *)
  it_interval : OnIdleCpuIntervalT;  (* the argument of onIdleCpu *)
  it_result : bool;      (* what onIdleCpu returned *)
  it_calls : list Call;  (* the scheduler calls made inside onIdleCpu *)
  it_slept : option (Scheduler * W * Z);
      (* scheduler and world on entry to sleepUntilEvent, and the deadline *)
  it_next : OnIdleCpuIntervalT;      (* intervalT when the iteration ends *)
  it_count : Z                       (* numShortIntervals at that point *)
}.

(** Lines 105-110: dispatch the pending event when it is due, then reset
    the slot. *)
Definition dispatchPhase (l : LoopState) : option (OutputEvent * W) * LoopState :=
  let s := sched l in
  if negb (isNull (nextEvent s)) && isEventTime (world l) (nextEvent s) then
    let '(calls, w1) := interface_queue env (nextEvent s) (world l) in
    let s1 := applyCalls calls s in
    (Some (nextEvent s, world l),
     {| sched := clearSlot s1;
        intervalT := intervalT l;
        numShortIntervals := numShortIntervals l;
        world := w1 |})
  else (None, l).

Inductive Outcome : Type := Next | Break.

(** The body of the [while] loop, lines 105-126. *)
Definition iteration (l : LoopState) : Iteration * LoopState * Outcome :=
  let '(d, l1) := dispatchPhase l in
  let room := isRoomInBuffer (sched l1) in
  let '(r, calls, w2) := interface_onIdleCpu env (intervalT l1) room (world l1) in
  let s2 := applyCalls calls (sched l1) in
  if negb r then
    if _doExit s2 then
      (mkIteration d room (intervalT l1) r calls None
                   (intervalT l1) (numShortIntervals l1),
       mkLoopState s2 (intervalT l1) (numShortIntervals l1) w2,
       Break)
    else
      let deadline := sleepUntil s2 w2 (nextEvent s2) in
      let w3 := sleepUntilEvent s2 (nextEvent s2) w2 in
      (mkIteration d room (intervalT l1) r calls (Some (s2, w2, deadline))
                   OnIdleCpuIntervalWide (numShortIntervals l1),
       mkLoopState s2 OnIdleCpuIntervalWide (numShortIntervals l1) w3,
       Next)
  else
    let n := wrap32 (numShortIntervals l1 + 1) in
    let i := if Z.rem n 2048 =? 0 then OnIdleCpuIntervalWide
             else OnIdleCpuIntervalShort in
    (mkIteration d room (intervalT l1) r calls None i n,
     mkLoopState s2 i n w2,
     Next).

(** The [while (!_doExit)] loop with a bound on the number of times its
    condition is evaluated.  The result is the log of the iterations, the
    state reached and whether the loop was left. *)
Fixpoint loop (fuel : nat) (l : LoopState) : list Iteration * LoopState * bool :=
  match fuel with
  | O => ([], l, false)
  | S fuel' =>
      if _doExit (sched l) then ([], l, true)
      else
        match iteration l with
        | (e, l', Break) => ([e], l', true)
        | (e, l', Next) =>
            let '(es, l'', exited) := loop fuel' l' in (e :: es, l'', exited)
        end
  end.

(** The locals on entry: [intervalT = OnIdleCpuIntervalWide],
    [numShortIntervals = 0]. *)
Definition enter (s : Scheduler) (w : W) : LoopState :=
  mkLoopState s OnIdleCpuIntervalWide 0 w.

(** [eventLoop]: the loop, then [_doExit = false].  [None] when the loop is
    still running after [fuel] evaluations of its condition. *)
Definition eventLoop (fuel : nat) (s : Scheduler) (w : W)
  : option (list Iteration * Scheduler * W) :=
  let '(es, l, exited) := loop fuel (enter s w) in
  if exited then Some (es, clearExit (sched l), world l) else None.

(** The log of a run that may still be going on. *)
Definition runLog (fuel : nat) (s : Scheduler) (w : W) : list Iteration :=
  fst (fst (loop fuel (enter s w))).

(** ** Bookkeeping on logs *)

(** How many iterations of a log had [onIdleCpu] return true. *)
Fixpoint trueCount (es : list Iteration) : Z :=
  match es with
  | [] => 0
  | e :: es' => (if it_result e then 1 else 0) + trueCount es'
  end.

(** How many iterations of a log ended with [intervalT] set to Wide. *)
Fixpoint wideCount (es : list Iteration) : Z :=
  match es with
  | [] => 0
  | e :: es' => (if isWide (it_next e) then 1 else 0) + wideCount es'
  end.

Definition sleptIn (e : Iteration) : bool :=
  match it_slept e with Some _ => true | None => false end.

(** An entry that dispatched did so for an event that is not empty and
    whose deadline [schedTime(evt.time())] was not after [now()] at the
    call of [interface.queue]. *)
Definition dispatchedWhenDue (e : Iteration) : Prop :=
  match it_dispatched e with
  | Some (evt, w) =>
      isNull evt = false /\
      interface_schedTime env w (time evt) <= EventClockT_now env w
  | None => True
  end.

(** An entry that slept did so after a false idle slice with the exit flag
    unset, until [now + MAX_SLEEP] when the slot was empty and until the
    smaller of [now + MAX_SLEEP] and the event's deadline otherwise. *)
Definition sleptAsComputed (e : Iteration) : Prop :=
  match it_slept e with
  | Some (s, w, d) =>
      it_result e = false /\ _doExit s = false /\
      d = (if isNull (nextEvent s)
           then EventClockT_now env w + MAX_SLEEP s
           else Z.min (EventClockT_now env w + MAX_SLEEP s)
                      (interface_schedTime env w (time (nextEvent s)))) /\
      d <= EventClockT_now env w + MAX_SLEEP s
  | None => True
  end.

(** [chained i n es]: the log [es] continues a run whose [intervalT] is [i]
    and in which [onIdleCpu] has returned true [n] times so far.  Each entry
    is called with the interval its predecessor left, and leaves the
    interval and the counter as lines 121 and 125 compute them; only the
    last entry can be the one that breaks out and leaves both alone. *)
Fixpoint chained (i : OnIdleCpuIntervalT) (n : Z) (es : list Iteration) : Prop :=
  match es with
  | [] => True
  | e :: es' =>
      it_interval e = i /\
      (if it_result e
       then it_count e = wrap32 (n + 1) /\
            it_next e = (if Z.rem (wrap32 (n + 1)) 2048 =? 0
                         then OnIdleCpuIntervalWide else OnIdleCpuIntervalShort)
       else it_count e = wrap32 n /\
            (it_next e = OnIdleCpuIntervalWide \/ (es' = [] /\ it_next e = i))) /\
      chained (it_next e) (if it_result e then n + 1 else n) es'
  end.

(** ** Offers and dispatches along a log *)

Definition dispatchedIn (e : Iteration) : bool :=
  match it_dispatched e with Some _ => true | None => false end.

(** How many iterations of a log handed an event to [interface.queue]. *)
Fixpoint dispatchCount (es : list Iteration) : Z :=
  match es with
  | [] => 0
  | e :: es' => (if dispatchedIn e then 1 else 0) + dispatchCount es'
  end.

(** A call of [queue] with an event that is not empty. *)
Definition isOffer (c : Call) : bool :=
  match c with CallQueue evt => negb (isNull evt) | _ => false end.

Definition isSetMaxSleepCall (c : Call) : bool :=
  match c with CallSetMaxSleep _ => true | _ => false end.

Definition offersIn (cs : list Call) : Z := Z.of_nat (length (filter isOffer cs)).

(** How many offers the idle slices of a log made. *)
Fixpoint offerCount (es : list Iteration) : Z :=
  match es with
  | [] => 0
  | e :: es' => offersIn (it_calls e) + offerCount es'
  end.

(** 1 when the slot holds an event, 0 when it is empty. *)
Definition pendingBit (s : Scheduler) : Z :=
  if isNull (nextEvent s) then 0 else 1.

(** The argument of the last [queue] among the calls [cs], [evt0] when
    there is none. *)
Definition lastQueued (cs : list Call) (evt0 : OutputEvent) : OutputEvent :=
  fold_left (fun x c => match c with CallQueue evt => evt | _ => x end) cs evt0.

(** The slot as the log tells it: an iteration that dispatched empties
    it, then the idle slice's calls of [queue] fill it in turn. *)
Fixpoint slotAfter (evt0 : OutputEvent) (es : list Iteration) : OutputEvent :=
  match es with
  | [] => evt0
  | e :: es' =>
      slotAfter (lastQueued (it_calls e)
                   (if dispatchedIn e then OutputEvent_new else evt0)) es'
  end.

(** A sleep of the entry, if any, was computed with the ceiling [m] and
    does not end after [now + m]. *)
Definition sleptWithin (m : Z) (e : Iteration) : Prop :=
  match it_slept e with
  | Some (s, w, d) => MAX_SLEEP s = m /\ d <= EventClockT_now env w + m
  | None => True
  end.

End Loop.

(** ** The states of a scheduler *)

(** [reach s g]: the scheduler state [s] is reached from the constructor by
    the public member functions and by the two assignments [eventLoop]
    makes; [g] is the event that was offered with [queue], is not empty and
    has not been dispatched since (none when [g] is [None]). *)
Inductive reach : Scheduler -> option OutputEvent -> Prop :=
  | reach_new : reach Scheduler_new None
  | reach_queue s g evt :
      reach s g -> reach (queue evt s) (if isNull evt then None else Some evt)
  | reach_setMaxSleep s g d : reach s g -> reach (setMaxSleep d s) g
  | reach_exitEventLoop s g : reach s g -> reach (exitEventLoop s) g
  | reach_dispatch s g : reach s g -> reach (clearSlot s) None
  | reach_return s g : reach s g -> reach (clearExit s) g.

Definition reachable (s : Scheduler) : Prop := exists g, reach s g.

End SchedulerModel.

(** ** A concrete platform and interface, to run the model on *)

(** An event is empty or carries a time and a pin number; the clock ticks
    in microseconds. *)
Definition testPlatform : Platform :=
  {| OutputEvent := option (Z * Z);
     OutputEvent_new := None;
     isNull := fun e => match e with None => true | Some _ => false end;
     time := fun e => match e with None => 0 | Some (t, _) => t end;
     milliseconds := fun n => n * 1000;
     isNull_new := eq_refl |}.

Section TestEnv.

#[local] Existing Instance testPlatform.

(** The world of the test interface: the clock, what the coming idle slices
    will answer and call, and the events dispatched so far. *)
Record TestWorld : Type := mkTestWorld {
  clock : Z;
  script : list (bool * list Call);
  fired : list OutputEvent
}.

(** An interface that plays a script: each idle slice takes one tick and
    answers with the head of the script (false, with no calls, once the
    script is over); dispatching records the event; sleeping moves the
    clock to the deadline. *)
Definition testEnv : Env TestWorld :=
  {| EventClockT_now := clock;
     interface_schedTime := fun _ t => t;
     interface_queue := fun evt w =>
       ([], mkTestWorld (clock w) (script w) (fired w ++ [evt]));
     interface_onIdleCpu := fun _ _ w =>
       match script w with
       | [] => (false, [], mkTestWorld (clock w + 1) [] (fired w))
       | (r, cs) :: rest => (r, cs, mkTestWorld (clock w + 1) rest (fired w))
       end;
     SleepT_sleep_until := fun d w =>
       mkTestWorld (Z.max (clock w) d) (script w) (fired w) |}.

Definition testWorld (sc : list (bool * list Call)) : TestWorld :=
  mkTestWorld 0 sc [].

(** A scheduler with an event for pin 7 pending at time [t]. *)
Definition pendingAt (t : Z) : Scheduler := queue (Some (t, 7)) Scheduler_new.

(** A script of [n] idle slices that all report more work. *)
Definition busyScript (n : nat) : list (bool * list Call) := repeat (true, []) n.

(** 2047 busy slices, one idle one, then busy again. *)
Definition burstScript : list (bool * list Call) :=
  busyScript 2047 ++ [(false, [])] ++ busyScript 1.

(** The test interface, except that dispatching an event makes the calls
    [cs] on the scheduler. *)
Definition callingEnv (cs : list Call) : Env TestWorld :=
  {| EventClockT_now := EventClockT_now testEnv;
     interface_schedTime := interface_schedTime testEnv;
     interface_queue := fun evt w => (cs, snd (interface_queue testEnv evt w));
     interface_onIdleCpu := interface_onIdleCpu testEnv;
     SleepT_sleep_until := SleepT_sleep_until testEnv |}.

(** An interface that never has background work and never calls the
    scheduler; its world is the clock, an idle slice takes one tick and a
    sleep lasts until its deadline. *)
Definition quietEnv : Env Z :=
  {| EventClockT_now := fun w => w;
     interface_schedTime := fun _ t => t;
     interface_queue := fun _ w => ([], w);
     interface_onIdleCpu := fun _ _ w => (false, [], w + 1);
     SleepT_sleep_until := fun d w => Z.max w d |}.

(** Two offers in the first idle slice, both due at once. *)
Definition doubleOfferScript : list (bool * list Call) :=
  [(true, [CallQueue (Some (0, 1)); CallQueue (Some (0, 2))]); (false, [])].

End TestEnv.

(** ** The test driver (src/state.cpp) *)

Section TestDriver.

Import Ascii String.

(** The character ['\n']. *)
Definition newline : ascii := ascii_of_nat 10.

(** The loop of the lambda [readLine].  [polls] are the outcomes of the
    successive calls [outputFile.readsome(&curChar, 1)]: [Some c] when a
    character was there, [None] when none was and [curChar] is left alone.
    The loop ends when [curChar] is a newline; when the polls run out
    before that, it is still waiting ([None]).  The result is the string
    [read] and the polls not yet made. *)
Fixpoint readLine_loop (polls : list (option ascii)) (curChar : ascii)
    (read : string) : option (string * list (option ascii)) :=
  match polls with
  | [] => if Ascii.eqb curChar newline then Some (read, []) else None
  | p :: rest =>
      if Ascii.eqb curChar newline then Some (read, polls)
      else
        match p with
        | Some c =>
            if negb (Ascii.eqb c newline)
            then readLine_loop rest c (append read (String c EmptyString))
            else readLine_loop rest c read
        | None => readLine_loop rest curChar read
        end
  end.

(** [std::string read; char curChar = 0; while (curChar != '\n') ...] *)
Definition readLine (polls : list (option ascii))
  : option (string * list (option ascii)) :=
  readLine_loop polls zero EmptyString.

(** The characters a list of polls delivers. *)
Fixpoint chars (polls : list (option ascii)) : string :=
  match polls with
  | [] => EmptyString
  | Some c :: rest => String c (chars rest)
  | None :: rest => chars rest
  end.

Definition isNewlinePoll (p : option ascii) : bool :=
  match p with Some c => Ascii.eqb c newline | None => false end.

(** The test of [sendCommand]:
    [got.substr(0, expect.length()) == expect]. *)
Definition acknowledged (got expect : string) : bool :=
  String.eqb (substring 0 (String.length expect) got) expect.

End TestDriver.

(** * Properties *)

(** ** The wrapped counter *)

Lemma wrap32_succ (n : Z) : wrap32 (wrap32 n + 1) = wrap32 (n + 1).
Proof.
  unfold wrap32.
  replace ((n + 2 ^ 31) mod 2 ^ 32 - 2 ^ 31 + 1 + 2 ^ 31)
    with ((n + 2 ^ 31) mod 2 ^ 32 + 1) by lia.
  rewrite Zplus_mod_idemp_l.
  replace (n + 2 ^ 31 + 1) with (n + 1 + 2 ^ 31) by lia.
  reflexivity.
Qed.

Lemma wrap32_0 : wrap32 0 = 0.
Proof. reflexivity. Qed.

(** The wrapped counter is a multiple of 2048 exactly when the number of
    increments is: 2^32 is a multiple of 2048. *)
Lemma rem_wrap32 (n : Z) : (Z.rem (wrap32 n) 2048 =? 0) = (n mod 2048 =? 0).
Proof.
  assert (E : wrap32 n = n - 2048 * (2 ^ 21 * ((n + 2 ^ 31) / 2 ^ 32))).
  { unfold wrap32.
    pose proof (Z_div_mod_eq_full (n + 2 ^ 31) (2 ^ 32)) as H.
    change (2 ^ 32) with (2048 * 2 ^ 21) in H at 1. lia. }
  apply eq_true_iff_eq.
  rewrite !Z.eqb_eq, Z.rem_divide, Z.mod_divide by lia.
  rewrite E. split; intros [k Hk].
  - exists (k + 2 ^ 21 * ((n + 2 ^ 31) / 2 ^ 32)). lia.
  - exists (k - 2 ^ 21 * ((n + 2 ^ 31) / 2 ^ 32)). lia.
Qed.

(** Among two successive numbers of true results, the quotient by 2048
    grows exactly at a multiple of 2048. *)
Lemma div2048_succ (n : Z) :
  (n + 1) / 2048 - n / 2048 = if (n + 1) mod 2048 =? 0 then 1 else 0.
Proof.
  pose proof (Z_div_mod_eq_full n 2048).
  pose proof (Z_div_mod_eq_full (n + 1) 2048).
  pose proof (Z.mod_pos_bound n 2048 ltac:(lia)).
  pose proof (Z.mod_pos_bound (n + 1) 2048 ltac:(lia)).
  destruct (Z.eqb_spec ((n + 1) mod 2048) 0); lia.
Qed.

Section Properties.

Context {P : Platform}.

(** ** Member functions *)

Lemma applyCalls_doExit (cs : list Call) (s : Scheduler) :
  _doExit (applyCalls cs s) = _doExit s || existsb isExitCall cs.
Proof.
  unfold applyCalls. revert s.
  induction cs as [|c cs IH]; intro s; simpl.
  - now rewrite orb_false_r.
  - rewrite IH. destruct c; simpl; try reflexivity.
    now rewrite orb_true_r.
Qed.

Lemma applyCalls_reach (cs : list Call) (s : Scheduler) :
  reachable s -> reachable (applyCalls cs s).
Proof.
  unfold applyCalls. revert s.
  induction cs as [|c cs IH]; intros s Hs; simpl; [exact Hs|].
  apply IH. destruct Hs as [g Hg].
  destruct c as [evt|d|]; simpl; eexists.
  - exact (reach_queue evt Hg).
  - exact (reach_setMaxSleep d Hg).
  - exact (reach_exitEventLoop Hg).
Qed.

(** C6, silent overwrite on double offer: [queue evt] installs [evt] as the
    pending event whatever the slot held, changes neither [MAX_SLEEP] nor
    the exit flag, and a second [queue] without a dispatch in between
    leaves the scheduler as if the first had never been made.  The function
    is total and returns nothing but the new state. *)
Theorem queue_overwrites (s : Scheduler) (evt1 evt2 : OutputEvent) :
  nextEvent (queue evt2 s) = evt2 /\
  MAX_SLEEP (queue evt2 s) = MAX_SLEEP s /\
  _doExit (queue evt2 s) = _doExit s /\
  nextEvent (queue evt2 (queue evt1 s)) = evt2 /\
  queue evt2 (queue evt1 s) = queue evt2 s.
Proof. repeat split. Qed.

(** C2, single-slot invariant: in every state a scheduler reaches,
    [isRoomInBuffer] answers true exactly when the slot holds an empty
    event, which is exactly when no offered event is waiting for its
    dispatch; while such an event [evt] waits, it is the one in the slot and
    [isRoomInBuffer] answers false. *)
Theorem single_slot_invariant (s : Scheduler) (g : option OutputEvent) :
  reach s g ->
  (isRoomInBuffer s = true <-> isNull (nextEvent s) = true) /\
  (isRoomInBuffer s = true <-> g = None) /\
  (forall evt, g = Some evt ->
     nextEvent s = evt /\ isNull evt = false /\ isRoomInBuffer s = false).
Proof.
  intro H. split; [reflexivity|].
  unfold isRoomInBuffer.
  induction H as [|s g evt H IH|s g d H IH|s g H IH|s g H IH|s g H IH]; simpl.
  - split; [|discriminate]. split; [reflexivity|]. intros _. apply isNull_new.
  - destruct (isNull evt) eqn:E.
    + split; [|discriminate]. split; reflexivity.
    + split; [split; discriminate|].
      intros e [= <-]. auto.
  - exact IH.
  - exact IH.
  - split; [|discriminate]. split; [reflexivity|]. intros _. apply isNull_new.
  - exact IH.
Qed.

Section LoopProperties.

Variable W : Type.
Variable env : Env W.

(** ** One iteration *)

Lemma dispatchPhase_locals (l : LoopState W) :
  intervalT (snd (dispatchPhase env l)) = intervalT l /\
  numShortIntervals (snd (dispatchPhase env l)) = numShortIntervals l.
Proof.
  unfold dispatchPhase.
  destruct (negb (isNull (nextEvent (sched l))) &&
            isEventTime env (world l) (nextEvent (sched l))); [|split; reflexivity].
  destruct (interface_queue env (nextEvent (sched l)) (world l)); split; reflexivity.
Qed.

Lemma dispatchPhase_reach (l : LoopState W) :
  reachable (sched l) -> reachable (sched (snd (dispatchPhase env l))).
Proof.
  intro H. unfold dispatchPhase.
  destruct (negb (isNull (nextEvent (sched l))) &&
            isEventTime env (world l) (nextEvent (sched l))); [|exact H].
  destruct (interface_queue env (nextEvent (sched l)) (world l)) as [cs w1]; simpl.
  destruct (applyCalls_reach cs H) as [g Hg].
  exists None. now apply reach_dispatch with (g := g).
Qed.

(** The three ways through the loop body. *)
Lemma iteration_cases (l : LoopState W) :
  let l1 := snd (dispatchPhase env l) in
  let d := fst (dispatchPhase env l) in
  let room := isRoomInBuffer (sched l1) in
  let r := fst (fst (interface_onIdleCpu env (intervalT l1) room (world l1))) in
  let calls := snd (fst (interface_onIdleCpu env (intervalT l1) room (world l1))) in
  let w2 := snd (interface_onIdleCpu env (intervalT l1) room (world l1)) in
  let s2 := applyCalls calls (sched l1) in
  let n := wrap32 (numShortIntervals l + 1) in
  let i := if Z.rem n 2048 =? 0 then OnIdleCpuIntervalWide
           else OnIdleCpuIntervalShort in
  (r = false /\ _doExit s2 = true /\
   iteration env l =
     (mkIteration d room (intervalT l) false calls None
                  (intervalT l) (numShortIntervals l),
      mkLoopState s2 (intervalT l) (numShortIntervals l) w2, Break)) \/
  (r = false /\ _doExit s2 = false /\
   iteration env l =
     (mkIteration d room (intervalT l) false calls
                  (Some (s2, w2, sleepUntil env s2 w2 (nextEvent s2)))
                  OnIdleCpuIntervalWide (numShortIntervals l),
      mkLoopState s2 OnIdleCpuIntervalWide (numShortIntervals l)
                  (SleepT_sleep_until env (sleepUntil env s2 w2 (nextEvent s2)) w2),
      Next)) \/
  (r = true /\
   iteration env l =
     (mkIteration d room (intervalT l) true calls None i n,
      mkLoopState s2 i n w2, Next)).
Proof.
  intros l1 d room r calls w2 s2 n i.
  subst n i. destruct (dispatchPhase_locals l) as [Hi Hn].
  fold l1 in Hi, Hn. rewrite <- Hi, <- Hn.
  unfold iteration.
  subst s2 calls r w2 room d l1.
  destruct (dispatchPhase env l) as [d l1]; simpl.
  destruct (interface_onIdleCpu env (intervalT l1) (isRoomInBuffer (sched l1)) (world l1))
    as [[r calls] w2]; simpl.
  destruct r; simpl.
  - right; right. split; reflexivity.
  - destruct (_doExit (applyCalls calls (sched l1))) eqn:E.
    + left. repeat split.
    + right; left. repeat split.
Qed.

(** A property of every entry an iteration can write holds all along every
    log. *)
Lemma loop_Forall (Q : Iteration W -> Prop) :
  (forall l, Q (fst (fst (iteration env l)))) ->
  forall fuel l, Forall Q (fst (fst (loop env fuel l))).
Proof.
  intros HQ fuel. induction fuel as [|fuel IH]; intro l; simpl.
  - constructor.
  - destruct (_doExit (sched l)); [constructor|].
    specialize (HQ l).
    destruct (iteration env l) as [[e l'] o]; simpl in HQ.
    destruct o.
    + specialize (IH l').
      destruct (loop env fuel l') as [[es l''] b]; simpl in *.
      constructor; assumption.
    + simpl. constructor; [assumption|constructor].
Qed.

Lemma dispatchPhase_due (l : LoopState W) :
  match fst (dispatchPhase env l) with
  | Some (evt, w) =>
      evt = nextEvent (sched l) /\ w = world l /\ isNull evt = false /\
      interface_schedTime env w (time evt) <= EventClockT_now env w
  | None => dispatchPhase env l = (None, l)
  end.
Proof.
  unfold dispatchPhase.
  destruct (isNull (nextEvent (sched l))) eqn:En; simpl; [reflexivity|].
  unfold isEventTime.
  destruct (Z.leb_spec (interface_schedTime env (world l) (time (nextEvent (sched l))))
                       (EventClockT_now env (world l))) as [Hle|Hlt]; [|reflexivity].
  destruct (interface_queue env (nextEvent (sched l)) (world l)); simpl.
  auto.
Qed.

Lemma iteration_dispatched (l : LoopState W) :
  it_dispatched (fst (fst (iteration env l))) = fst (dispatchPhase env l) /\
  it_room (fst (fst (iteration env l))) =
    isRoomInBuffer (sched (snd (dispatchPhase env l))).
Proof.
  destruct (iteration_cases l) as [(_ & _ & E)|[(_ & _ & E)|(_ & E)]];
    rewrite E; split; reflexivity.
Qed.

(** C1, no early dispatch: in every log of the loop, from any state, an
    entry that handed an event to [interface.queue] did so in an iteration
    where [schedTime(event.time()) <= now()]; and from a state whose pending
    event has its deadline in the future, the dispatch step does nothing:
    the iteration dispatches no event and the slot keeps it. *)
Theorem no_early_dispatch (fuel : nat) (l : LoopState W) :
  Forall (dispatchedWhenDue env) (fst (fst (loop env fuel l))) /\
  (EventClockT_now env (world l) <
     interface_schedTime env (world l) (time (nextEvent (sched l))) ->
   dispatchPhase env l = (None, l) /\
   it_dispatched (fst (fst (iteration env l))) = None).
Proof.
  split.
  - apply loop_Forall. clear l. intro l.
    unfold dispatchedWhenDue.
    destruct (iteration_dispatched l) as [-> _].
    pose proof (dispatchPhase_due l) as H.
    destruct (fst (dispatchPhase env l)) as [[evt w]|]; [|exact I].
    tauto.
  - intro Hlt.
    destruct (iteration_dispatched l) as [-> _].
    pose proof (dispatchPhase_due l) as H.
    destruct (fst (dispatchPhase env l)) as [[evt w]|] eqn:E.
    + destruct H as (-> & -> & _ & Hle). lia.
    + split; [exact H|reflexivity].
Qed.

(** C7, dispatch clears the slot: from a state whose slot is not empty and
    whose event is due, the iteration hands exactly that event to
    [interface.queue], in the world of the check, and then resets the slot
    to [OutputEvent()], so that [isRoomInBuffer()] is true when the idle
    slice of the same iteration starts. *)
Theorem dispatch_clears_slot (l : LoopState W) :
  isNull (nextEvent (sched l)) = false ->
  interface_schedTime env (world l) (time (nextEvent (sched l)))
    <= EventClockT_now env (world l) ->
  fst (dispatchPhase env l) = Some (nextEvent (sched l), world l) /\
  world (snd (dispatchPhase env l)) =
    snd (interface_queue env (nextEvent (sched l)) (world l)) /\
  nextEvent (sched (snd (dispatchPhase env l))) = OutputEvent_new /\
  isRoomInBuffer (sched (snd (dispatchPhase env l))) = true /\
  it_dispatched (fst (fst (iteration env l))) = Some (nextEvent (sched l), world l) /\
  it_room (fst (fst (iteration env l))) = true.
Proof.
  intros Hn Hle.
  destruct (iteration_dispatched l) as [-> ->].
  unfold dispatchPhase, isEventTime, isRoomInBuffer.
  rewrite Hn. apply Z.leb_le in Hle. rewrite Hle. simpl.
  destruct (interface_queue env (nextEvent (sched l)) (world l)); simpl.
  rewrite isNull_new. repeat split.
Qed.

Lemma iteration_slept (l : LoopState W) :
  sleptAsComputed env (fst (fst (iteration env l))) /\
  sleptIn (fst (fst (iteration env l))) =
    negb (it_result (fst (fst (iteration env l)))) &&
    negb (_doExit (sched (snd (fst (iteration env l))))) /\
  match it_slept (fst (fst (iteration env l))) with
  | Some (s, w, d) =>
      sched (snd (fst (iteration env l))) = s /\
      d = sleepUntil env s w (nextEvent s) /\
      world (snd (fst (iteration env l))) = SleepT_sleep_until env d w
  | None => True
  end.
Proof.
  destruct (iteration_cases l) as [(_ & Hx & E)|[(_ & Hx & E)|(_ & E)]];
    rewrite E; unfold sleptAsComputed, sleptIn; simpl.
  - rewrite Hx. auto.
  - rewrite Hx. repeat split.
    + unfold sleepUntil.
      destruct (isNull (nextEvent _)); simpl; [reflexivity|].
      match goal with |- context [?a <? ?b] => destruct (Z.ltb_spec a b) end; lia.
    + unfold sleepUntil.
      destruct (isNull (nextEvent _)); simpl; [lia|].
      match goal with |- context [?a <? ?b] => destruct (Z.ltb_spec a b) end; lia.
  - auto.
Qed.

(** C3, sleep deadline computation: in every log of the loop, an entry
    that slept did so after an idle slice that returned false with the exit
    flag unset, and the time point given to [SleepT::sleep_until] is
    [now + MAX_SLEEP] when the slot is empty and
    [min (now + MAX_SLEEP) (schedTime(slot.time()))] when it is not, hence
    never after [now + MAX_SLEEP].  An iteration sleeps exactly when its
    idle slice returned false and the exit flag is unset afterwards, and
    the sleep is the call of [sleep_until] with that time point. *)
Theorem sleep_deadline (fuel : nat) (l : LoopState W) :
  Forall (sleptAsComputed env) (fst (fst (loop env fuel l))) /\
  sleptIn (fst (fst (iteration env l))) =
    negb (it_result (fst (fst (iteration env l)))) &&
    negb (_doExit (sched (snd (fst (iteration env l))))) /\
  match it_slept (fst (fst (iteration env l))) with
  | Some (s, w, d) =>
      sched (snd (fst (iteration env l))) = s /\
      d = sleepUntil env s w (nextEvent s) /\
      world (snd (fst (iteration env l))) = SleepT_sleep_until env d w
  | None => True
  end.
Proof.
  split.
  - apply loop_Forall. intro l0. apply iteration_slept.
  - apply iteration_slept.
Qed.

Lemma iteration_doExit (l : LoopState W) :
  _doExit (sched (snd (fst (iteration env l)))) =
    _doExit (sched (snd (dispatchPhase env l))) ||
    existsb isExitCall (it_calls (fst (fst (iteration env l)))).
Proof.
  destruct (iteration_cases l) as [(_ & _ & E)|[(_ & _ & E)|(_ & E)]];
    rewrite E; simpl; apply applyCalls_doExit.
Qed.

(** C5, cancellation without sleeping: from any state of the running loop,
    if the idle slice of the coming iteration calls [exitEventLoop], the
    loop is left after that one iteration and the iteration does not sleep:
    when the slice returns false the iteration breaks out, when it returns
    true the iteration ends with the exit flag set and the loop condition
    fails next.  Entered in such a state, [eventLoop] returns with that
    single entry in its log. *)
Theorem cancel_in_idle_slice (fuel : nat) (l : LoopState W) :
  _doExit (sched l) = false ->
  existsb isExitCall (it_calls (fst (fst (iteration env l)))) = true ->
  loop env (S (S fuel)) l =
    ([fst (fst (iteration env l))], snd (fst (iteration env l)), true) /\
  it_slept (fst (fst (iteration env l))) = None /\
  snd (iteration env l) =
    (if it_result (fst (fst (iteration env l))) then Next else Break) /\
  _doExit (sched (snd (fst (iteration env l)))) = true /\
  (forall s w, l = enter s w ->
     eventLoop env (S (S fuel)) s w =
       Some ([fst (fst (iteration env l))],
             clearExit (sched (snd (fst (iteration env l)))),
             world (snd (fst (iteration env l))))).
Proof.
  intros Hrun Hcall.
  pose proof (iteration_doExit l) as Hx. rewrite Hcall, orb_true_r in Hx.
  assert (Hloop : loop env (S (S fuel)) l =
            ([fst (fst (iteration env l))], snd (fst (iteration env l)), true)).
  { change (loop env (S (S fuel)) l) with
      (if _doExit (sched l) then ([], l, true)
       else match iteration env l with
            | (e, l', Break) => ([e], l', true)
            | (e, l', Next) =>
                let '(es, l'', exited) := loop env (S fuel) l' in
                (e :: es, l'', exited)
            end).
    rewrite Hrun.
    destruct (iteration env l) as [[e l'] o]; simpl in *.
    destruct o; [|reflexivity].
    rewrite Hx. reflexivity. }
  split; [exact Hloop|].
  split; [|split; [|split; [exact Hx|]]].
  - destruct (iteration_cases l) as [(_ & _ & E)|[(_ & Hn & E)|(_ & E)]];
      rewrite E in *; simpl in *; try reflexivity.
    congruence.
  - destruct (iteration_cases l) as [(_ & _ & E)|[(_ & Hn & E)|(_ & E)]];
      rewrite E in *; simpl in *; try reflexivity.
    congruence.
  - intros s w ->. unfold eventLoop. rewrite Hloop. reflexivity.
Qed.

(** C10, cancellation before the loop is entered: [eventLoop] on a
    scheduler whose exit flag was set by [exitEventLoop] returns with an
    empty log, so without a dispatch, an idle slice or a sleep, in the world
    it started in, with the pending event and [MAX_SLEEP] as they were and
    the exit flag cleared. *)
Theorem cancel_before_loop (fuel : nat) (s : Scheduler) (w : W) :
  eventLoop env (S fuel) (exitEventLoop s) w = Some ([], clearExit s, w) /\
  nextEvent (clearExit s) = nextEvent s /\
  MAX_SLEEP (clearExit s) = MAX_SLEEP s /\
  _doExit (clearExit s) = false.
Proof. repeat split. Qed.

(** C8, exit flag reset on return: the flag is false in a newly constructed
    scheduler and true after [exitEventLoop]; when [eventLoop] returns, the
    scheduler it leaves has the flag false again, and a further run of the
    loop on that scheduler does not stop at its first test: it goes through
    the loop body, so its log has a first entry. *)
Theorem exit_flag_reset (fuel : nat) (s s' : Scheduler) (w w' : W)
    (es : list (Iteration W)) :
  eventLoop env fuel s w = Some (es, s', w') ->
  _doExit Scheduler_new = false /\
  (forall s0, _doExit (exitEventLoop s0) = true) /\
  _doExit s' = false /\
  (forall fuel2 w2, exists e es2, runLog env (S fuel2) s' w2 = e :: es2).
Proof.
  intro H. unfold eventLoop in H.
  destruct (loop env fuel (enter s w)) as [[es0 l] b].
  destruct b; [|discriminate]. injection H as _ <- _.
  repeat split.
  intros fuel2 w2. unfold runLog. simpl.
  destruct (iteration env (enter (clearExit (sched l)) w2)) as [[e l'] o].
  destruct o.
  - destruct (loop env fuel2 l') as [[es2 l''] b2]. simpl. eauto.
  - simpl. eauto.
Qed.

(** The scheduler states the loop goes through are among those of
    [reach]: the loop changes the scheduler by the calls made from the
    interface, by resetting the slot after a dispatch and by clearing the
    exit flag on return. *)
Lemma loop_reachable (fuel : nat) :
  forall l : LoopState W,
    reachable (sched l) -> reachable (sched (snd (fst (loop env fuel l)))).
Proof.
  induction fuel as [|fuel IH]; intros l H; simpl; [exact H|].
  destruct (_doExit (sched l)); [exact H|].
  pose proof (dispatchPhase_reach l H) as H1.
  destruct (iteration_cases l) as [(_ & _ & E)|[(_ & _ & E)|(_ & E)]]; rewrite E.
  - simpl. now apply applyCalls_reach.
  - match goal with |- context [loop env fuel ?l'] =>
      specialize (IH l'); destruct (loop env fuel l') as [[es l''] b] end.
    simpl in *. apply IH. now apply applyCalls_reach.
  - match goal with |- context [loop env fuel ?l'] =>
      specialize (IH l'); destruct (loop env fuel l') as [[es l''] b] end.
    simpl in *. apply IH. now apply applyCalls_reach.
Qed.

Lemma eventLoop_reachable (fuel : nat) (s s' : Scheduler) (w w' : W)
    (es : list (Iteration W)) :
  reachable s -> eventLoop env fuel s w = Some (es, s', w') -> reachable s'.
Proof.
  intros H E. unfold eventLoop in E.
  pose proof (loop_reachable fuel (enter s w) H) as Hl.
  destruct (loop env fuel (enter s w)) as [[es0 l] b]; simpl in Hl.
  destruct b; [|discriminate]. injection E as _ <- _.
  destruct Hl as [g Hg]. exists g. now apply reach_return.
Qed.

(** ** The interval class and the counter along a log *)

Lemma loop_chained (fuel : nat) :
  forall (l : LoopState W) (n : Z),
    numShortIntervals l = wrap32 n ->
    chained (intervalT l) n (fst (fst (loop env fuel l))).
Proof.
  induction fuel as [|fuel IH]; intros l n Hn; simpl; [exact I|].
  destruct (_doExit (sched l)); [exact I|].
  destruct (iteration_cases l) as [(_ & _ & E)|[(_ & _ & E)|(_ & E)]]; rewrite E.
  - simpl. repeat split; auto.
  - match goal with |- context [loop env fuel ?l'] =>
      specialize (IH l' n Hn); destruct (loop env fuel l') as [[es l''] b] end.
    simpl in *. repeat split; auto.
  - rewrite Hn, wrap32_succ.
    match goal with |- context [loop env fuel ?l'] =>
      specialize (IH l' (n + 1) eq_refl); destruct (loop env fuel l') as [[es l''] b] end.
    simpl in *. repeat split; auto.
Qed.

Lemma runLog_chained (fuel : nat) (s : Scheduler) (w : W) :
  chained OnIdleCpuIntervalWide 0 (runLog env fuel s w).
Proof. apply (loop_chained fuel (enter s w) 0). reflexivity. Qed.

Lemma trueCount_app (es1 es2 : list (Iteration W)) :
  trueCount (es1 ++ es2) = trueCount es1 + trueCount es2.
Proof. induction es1 as [|e es1 IH]; simpl; lia. Qed.

Lemma chained_skip (pre es : list (Iteration W)) :
  forall i n,
    chained i n (pre ++ es) ->
    exists i', chained i' (n + trueCount pre) es /\
               (es <> [] -> wideAtMultiple i n ->
                wideAtMultiple i' (n + trueCount pre)).
Proof.
  induction pre as [|e pre IH]; intros i n H; simpl in *.
  - exists i. rewrite Z.add_0_r. auto.
  - destruct H as (Hi & Hstep & Hrest).
    destruct (IH _ _ Hrest) as (i' & Hc & HJ).
    exists i'. split.
    + destruct (it_result e); [|exact Hc].
      now replace (n + (1 + trueCount pre)) with (n + 1 + trueCount pre) by lia.
    + intros Hes HJ0.
      destruct (it_result e).
      * replace (n + (1 + trueCount pre)) with (n + 1 + trueCount pre) by lia.
        apply HJ; [exact Hes|]. intro Hm.
        destruct Hstep as [_ ->]. rewrite rem_wrap32.
        apply Z.eqb_eq in Hm. now rewrite Hm.
      * apply HJ; [exact Hes|]. intros _.
        destruct Hstep as [_ [Hw|[Hnil _]]]; [exact Hw|].
        destruct pre; destruct es; simpl in Hnil; congruence.
Qed.

(** In a run of true results that were all called with Short, no number of
    true results reached on the way is a multiple of 2048. *)
Lemma short_run_no_multiple (win post : list (Iteration W)) :
  forall i n,
    chained i n (win ++ post) ->
    wideAtMultiple i n ->
    forallb (@it_result _ W) win = true ->
    existsb (fun e => isWide (it_interval e)) win = false ->
    forall j, 0 <= j < Z.of_nat (length win) -> (n + j) mod 2048 <> 0.
Proof.
  induction win as [|e win IH]; intros i n H HJ Ht Hs j Hj; simpl in *; [lia|].
  destruct H as (Hi & Hstep & Hrest).
  apply andb_true_iff in Ht as [Hr Ht].
  apply orb_false_iff in Hs as [Hs0 Hs].
  rewrite Hr in *.
  assert (Hn : n mod 2048 <> 0).
  { intro Hm. apply HJ in Hm. rewrite Hi, Hm in Hs0. discriminate. }
  destruct (Z.eq_dec j 0) as [->|Hj0]; [now rewrite Z.add_0_r|].
  replace (n + j) with (n + 1 + (j - 1)) by lia.
  apply (IH _ _ Hrest); auto; [|lia].
  intro Hm. destruct Hstep as [_ ->]. rewrite rem_wrap32.
  apply Z.eqb_eq in Hm. now rewrite Hm.
Qed.

(** In a run of true results, the entries that end with Wide are as many as
    the multiples of 2048 the number of true results goes through. *)
Lemma true_run_wideCount (win post : list (Iteration W)) :
  forall i n,
    chained i n (win ++ post) ->
    forallb (@it_result _ W) win = true ->
    wideCount win = (n + Z.of_nat (length win)) / 2048 - n / 2048.
Proof.
  induction win as [|e win IH]; intros i n H Ht.
  - simpl. rewrite Z.add_0_r. lia.
  - cbn [app chained] in H. destruct H as (Hi & Hstep & Hrest).
    cbn [forallb] in Ht. apply andb_true_iff in Ht as [Hr Ht].
    rewrite Hr in *.
    cbn [wideCount length]. rewrite (IH _ _ Hrest Ht).
    destruct Hstep as [_ ->]. rewrite rem_wrap32.
    pose proof (div2048_succ n) as Hd.
    replace (n + Z.of_nat (S (length win))) with (n + 1 + Z.of_nat (length win)) by lia.
    destruct ((n + 1) mod 2048 =? 0); cbn [isWide]; lia.
Qed.

(** C4, fairness bound: in any log of [eventLoop], a window of 2048
    consecutive iterations (those from the [k]-th on) whose idle slices all
    returned true contains a call of [onIdleCpu] with the Wide interval; and
    of these 2048 true results exactly one set [intervalT] to Wide, the
    other 2047 left it Short. *)
Theorem fairness_bound (fuel : nat) (s : Scheduler) (w : W) (k : nat) :
  let win := firstn 2048 (skipn k (runLog env fuel s w)) in
  length win = 2048%nat ->
  forallb (@it_result _ W) win = true ->
  existsb (fun e => isWide (it_interval e)) win = true /\
  wideCount win = 1 /\
  Forall (fun e => it_next e = OnIdleCpuIntervalShort \/
                   it_next e = OnIdleCpuIntervalWide) win.
Proof.
  intros win Hlen Ht.
  set (pre := firstn k (runLog env fuel s w)).
  set (post := skipn 2048 (skipn k (runLog env fuel s w))).
  assert (Hlog : runLog env fuel s w = pre ++ win ++ post).
  { unfold pre, win, post. now rewrite !firstn_skipn. }
  pose proof (runLog_chained fuel s w) as Hc. rewrite Hlog in Hc.
  apply chained_skip in Hc as (i & Hw & HJ).
  assert (Hne : win ++ post <> []).
  { destruct win; [discriminate|]. discriminate. }
  specialize (HJ Hne (fun _ => eq_refl)). simpl in Hw, HJ.
  split; [|split].
  - destruct (existsb _ win) eqn:Ex; [reflexivity|exfalso].
    apply (@short_run_no_multiple win post _ _ Hw HJ Ht Ex ((- trueCount pre) mod 2048)).
    + rewrite Hlen. pose proof (Z.mod_pos_bound (- trueCount pre) 2048). lia.
    + rewrite Zplus_mod_idemp_r.
      replace (trueCount pre + - trueCount pre) with 0 by lia. reflexivity.
  - rewrite (@true_run_wideCount win post _ _ Hw Ht), Hlen.
    change (Z.of_nat 2048) with (1 * 2048).
    rewrite Z.div_add by lia. lia.
  - apply Forall_forall. intros e _. destruct (it_next e); auto.
Qed.

Lemma nth_error_firstn_skipn (A : Type) (l : list A) :
  forall k x, nth_error l k = Some x ->
    l = firstn k l ++ x :: skipn (S k) l /\ firstn (S k) l = firstn k l ++ [x].
Proof.
  induction l as [|y l IH]; intros [|k] x H; simpl in *; try discriminate.
  - injection H as ->. auto.
  - destruct (IH k x H) as [H1 H2]. split; f_equal; assumption.
Qed.

Lemma counter_at_index (fuel : nat) (s : Scheduler) (w : W)
    (k : nat) (e : Iteration W) :
  nth_error (runLog env fuel s w) k = Some e ->
  it_count e = wrap32 (trueCount (firstn (S k) (runLog env fuel s w))) /\
  (it_result e = false ->
     it_count e = wrap32 (trueCount (firstn k (runLog env fuel s w)))) /\
  (it_result e = true ->
     (it_next e = OnIdleCpuIntervalWide <->
      trueCount (firstn (S k) (runLog env fuel s w)) mod 2048 = 0)).
Proof.
  intro Hk.
  destruct (nth_error_firstn_skipn _ _ Hk) as [Hlog ->].
  set (pre := firstn k (runLog env fuel s w)) in *.
  pose proof (runLog_chained fuel s w) as Hc. rewrite Hlog in Hc.
  apply chained_skip in Hc as (i & Hw & _).
  rewrite Z.add_0_l in Hw.
  cbn [chained] in Hw. destruct Hw as (_ & Hstep & _).
  rewrite trueCount_app. cbn [trueCount].
  split; [|split].
  - destruct (it_result e); destruct Hstep as [-> _]; f_equal; lia.
  - intro Hr. rewrite Hr in Hstep. tauto.
  - intro Hr. rewrite Hr in *. destruct Hstep as [_ ->].
    rewrite rem_wrap32. rewrite Z.add_0_r.
    destruct (Z.eqb_spec ((trueCount pre + 1) mod 2048) 0) as [Hm|Hm];
      split; intro H; try assumption; try reflexivity; try discriminate.
    contradiction.
Qed.

End LoopProperties.

(** On the test interface: 2047 true results, a false one followed by a
    sleep, then one true result, which sets the interval to Wide. *)
Lemma promotion_in_short_burst :
  exists e0 e1,
    let log := @runLog testPlatform _ testEnv 2050
                 (@Scheduler_new testPlatform) (testWorld burstScript) in
    nth_error log 2047 = Some e0 /\ nth_error log 2048 = Some e1 /\
    trueCount (firstn 2047 log) = 2047 /\
    it_result e0 = false /\ sleptIn e0 = true /\
    it_result e1 = true /\ it_next e1 = OnIdleCpuIntervalWide.
Proof.
  set (log := @runLog testPlatform _ testEnv 2050
                (@Scheduler_new testPlatform) (testWorld burstScript)).
  assert (H0 : exists e0, nth_error log 2047 = Some e0 /\
                          it_result e0 = false /\ sleptIn e0 = true).
  { vm_compute. eexists. repeat split. }
  assert (H1 : exists e1, nth_error log 2048 = Some e1 /\
                          it_result e1 = true /\
                          it_next e1 = OnIdleCpuIntervalWide).
  { vm_compute. eexists. repeat split. }
  assert (H2 : trueCount (firstn 2047 log) = 2047) by (vm_compute; reflexivity).
  destruct H0 as (e0 & E0 & R0 & S0). destruct H1 as (e1 & E1 & R1 & N1).
  exists e0, e1. exact (conj E0 (conj E1 (conj H2 (conj R0 (conj S0 (conj R1 N1)))))).
Qed.

(** C9, cumulative promotion counter: at the [k]-th entry of a log of
    [eventLoop], [numShortIntervals] is the number of idle slices of the run
    that have returned true up to and including that entry (as a wrapped
    32-bit integer), so a false result, a sleep or a dispatch leaves it
    alone and nothing resets it; a true result sets [intervalT] to Wide
    exactly when that number is a multiple of 2048.  The test interface
    shows a promotion on the first true result after a false one: 2047 true
    results, a false one followed by a sleep, then one true result that ends
    with Wide. *)
Theorem cumulative_counter (W : Type) (env : Env W)
    (fuel : nat) (s : Scheduler) (w : W) (k : nat) (e : Iteration W) :
  nth_error (runLog env fuel s w) k = Some e ->
  it_count e = wrap32 (trueCount (firstn (S k) (runLog env fuel s w))) /\
  (it_result e = false ->
     it_count e = wrap32 (trueCount (firstn k (runLog env fuel s w)))) /\
  (it_result e = true ->
     (it_next e = OnIdleCpuIntervalWide <->
      trueCount (firstn (S k) (runLog env fuel s w)) mod 2048 = 0)) /\
  (exists e0 e1,
     let log := @runLog testPlatform _ testEnv 2050
                  (@Scheduler_new testPlatform) (testWorld burstScript) in
     nth_error log 2047 = Some e0 /\ nth_error log 2048 = Some e1 /\
     trueCount (firstn 2047 log) = 2047 /\
     it_result e0 = false /\ sleptIn e0 = true /\
     it_result e1 = true /\ it_next e1 = OnIdleCpuIntervalWide).
Proof.
  intro Hk.
  destruct (counter_at_index env fuel s w k Hk) as (H1 & H2 & H3).
  exact (conj H1 (conj H2 (conj H3 promotion_in_short_burst))).
Qed.


End Properties.

(** * The model at work on the test interface *)

Section Runs.

#[local] Existing Instance testPlatform.

(** Scenario A of the spec: an event due at 100 ms, [MAX_SLEEP] of 40 ms and
    idle slices that never have work.  The loop sleeps until 40, 80 and 100
    ms (a tick later each time, for the idle slice) and dispatches in the
    fourth iteration, at 100 ms. *)
Example scenario_A :
  let log := runLog testEnv 4 (pendingAt 100000) (testWorld []) in
  map (fun e => match it_slept e with Some (_, _, d) => d | None => -1 end) log
    = [40001; 80002; 100000; 140001] /\
  map (fun e => match it_dispatched e with
                | Some (evt, w) => Some (evt, clock w) | None => None end) log
    = [None; None; None; Some (Some (100000, 7), 100000)].
Proof. vm_compute. split; reflexivity. Qed.

(** Scenario B of the spec: [exitEventLoop] called inside the first idle
    slice, which reports more work; the loop is left with one entry and no
    sleep. *)
Example scenario_B :
  match eventLoop testEnv 2 Scheduler_new (testWorld [(true, [CallExitEventLoop])]) with
  | Some ([e], s, w) => it_slept e = None /\ _doExit s = false /\ clock w = 1
  | _ => False
  end.
Proof. vm_compute. repeat split. Qed.

Lemma no_early_dispatch_witness :
  let l := enter (pendingAt 100) (testWorld []) in
  EventClockT_now testEnv (world l) <
    interface_schedTime testEnv (world l) (time (nextEvent (sched l))) /\
  dispatchPhase testEnv l = (None, l) /\
  it_dispatched (fst (fst (iteration testEnv l))) = None.
Proof.
  intro l. split; [reflexivity|].
  apply (proj2 (no_early_dispatch testEnv 0 l)). reflexivity.
Defined.

Lemma single_slot_invariant_witness :
  let s := pendingAt 5 in
  let g := Some (Some (5, 7)) in
  reach s g /\
  (isRoomInBuffer s = true <-> isNull (nextEvent s) = true) /\
  (isRoomInBuffer s = true <-> g = None) /\
  (forall evt, g = Some evt ->
     nextEvent s = evt /\ isNull evt = false /\ isRoomInBuffer s = false).
Proof.
  intros s g.
  assert (H : reach s g) by exact (reach_queue (Some (5, 7)) reach_new).
  split; [exact H|].
  apply (single_slot_invariant H).
Defined.

Lemma fairness_bound_witness :
  let win := firstn 2048 (skipn 0
               (runLog testEnv 2048 Scheduler_new (testWorld (busyScript 2048)))) in
  (length win = 2048%nat /\ forallb (@it_result _ TestWorld) win = true) /\
  existsb (fun e => isWide (it_interval e)) win = true /\
  wideCount win = 1 /\
  Forall (fun e => it_next e = OnIdleCpuIntervalShort \/
                   it_next e = OnIdleCpuIntervalWide) win.
Proof.
  intro win.
  assert (H2 : length win = 2048%nat) by (vm_compute; reflexivity).
  assert (H3 : forallb (@it_result _ TestWorld) win = true) by (vm_compute; reflexivity).
  split; [exact (conj H2 H3)|].
  exact (fairness_bound testEnv 2048 Scheduler_new (testWorld (busyScript 2048))
           0 H2 H3).
Defined.

Lemma cancel_in_idle_slice_witness :
  let l := enter Scheduler_new (testWorld [(false, [CallExitEventLoop])]) in
  (_doExit (sched l) = false /\
   existsb isExitCall (it_calls (fst (fst (iteration testEnv l)))) = true) /\
  loop testEnv 2 l =
    ([fst (fst (iteration testEnv l))], snd (fst (iteration testEnv l)), true) /\
  it_slept (fst (fst (iteration testEnv l))) = None /\
  snd (iteration testEnv l) =
    (if it_result (fst (fst (iteration testEnv l))) then Next else Break) /\
  _doExit (sched (snd (fst (iteration testEnv l)))) = true /\
  (forall s w, l = enter s w ->
     eventLoop testEnv 2 s w =
       Some ([fst (fst (iteration testEnv l))],
             clearExit (sched (snd (fst (iteration testEnv l)))),
             world (snd (fst (iteration testEnv l))))).
Proof.
  intro l. split; [split; reflexivity|].
  apply (cancel_in_idle_slice testEnv 0 l); reflexivity.
Defined.

Lemma dispatch_clears_slot_witness :
  let l := enter (pendingAt 0) (testWorld []) in
  (isNull (nextEvent (sched l)) = false /\
   interface_schedTime testEnv (world l) (time (nextEvent (sched l)))
     <= EventClockT_now testEnv (world l)) /\
  fst (dispatchPhase testEnv l) = Some (nextEvent (sched l), world l) /\
  world (snd (dispatchPhase testEnv l)) =
    snd (interface_queue testEnv (nextEvent (sched l)) (world l)) /\
  nextEvent (sched (snd (dispatchPhase testEnv l))) = OutputEvent_new /\
  isRoomInBuffer (sched (snd (dispatchPhase testEnv l))) = true /\
  it_dispatched (fst (fst (iteration testEnv l))) = Some (nextEvent (sched l), world l) /\
  it_room (fst (fst (iteration testEnv l))) = true.
Proof.
  intro l.
  assert (H1 : isNull (nextEvent (sched l)) = false) by reflexivity.
  assert (H2 : interface_schedTime testEnv (world l) (time (nextEvent (sched l)))
               <= EventClockT_now testEnv (world l)) by (vm_compute; discriminate).
  split; [auto|].
  exact (dispatch_clears_slot testEnv l H1 H2).
Defined.

Lemma exit_flag_reset_witness :
  let w := testWorld [(false, [CallExitEventLoop])] in
  let r := fst (loop testEnv 2 (enter Scheduler_new w)) in
  eventLoop testEnv 2 Scheduler_new w
    = Some (fst r, clearExit (sched (snd r)), world (snd r)) /\
  _doExit Scheduler_new = false /\
  (forall s0, _doExit (exitEventLoop s0) = true) /\
  _doExit (clearExit (sched (snd r))) = false /\
  (forall fuel2 w2, exists e es2,
     runLog testEnv (S fuel2) (clearExit (sched (snd r))) w2 = e :: es2).
Proof.
  intros w r.
  assert (H : eventLoop testEnv 2 Scheduler_new w
              = Some (fst r, clearExit (sched (snd r)), world (snd r)))
    by reflexivity.
  split; [exact H|].
  exact (exit_flag_reset testEnv 2 Scheduler_new w H).
Defined.

Lemma cumulative_counter_witness :
  let log := runLog testEnv 3 Scheduler_new
               (testWorld [(true, []); (false, []); (true, [])]) in
  let e := mkIteration None true OnIdleCpuIntervalWide true [] None
                       OnIdleCpuIntervalShort 2 in
  nth_error log 2 = Some e /\
  it_count e = wrap32 (trueCount (firstn 3 log)) /\
  (it_result e = false -> it_count e = wrap32 (trueCount (firstn 2 log))) /\
  (it_result e = true ->
     (it_next e = OnIdleCpuIntervalWide <->
      trueCount (firstn 3 log) mod 2048 = 0)) /\
  (exists e0 e1,
     let log := runLog testEnv 2050 Scheduler_new (testWorld burstScript) in
     nth_error log 2047 = Some e0 /\ nth_error log 2048 = Some e1 /\
     trueCount (firstn 2047 log) = 2047 /\
     it_result e0 = false /\ sleptIn e0 = true /\
     it_result e1 = true /\ it_next e1 = OnIdleCpuIntervalWide).
Proof.
  intros log e.
  assert (H : nth_error log 2 = Some e) by reflexivity.
  split; [exact H|].
  exact (cumulative_counter testEnv 3 Scheduler_new
           (testWorld [(true, []); (false, []); (true, [])]) 2 H).
Defined.

End Runs.

(** * Further properties of the scheduler *)

Section SlotProperties.

Context {P : Platform}.

Lemma applyCalls_nextEvent (cs : list Call) (s : Scheduler) :
  nextEvent (applyCalls cs s) = lastQueued cs (nextEvent s).
Proof.
  unfold applyCalls, lastQueued. revert s.
  induction cs as [|c cs IH]; intro s; simpl; [reflexivity|].
  rewrite IH. destruct c; reflexivity.
Qed.

Lemma applyCalls_pending (cs : list Call) (s : Scheduler) :
  pendingBit (applyCalls cs s) <= pendingBit s + offersIn cs.
Proof.
  unfold applyCalls, offersIn. revert s.
  induction cs as [|c cs IH]; intro s; simpl; [lia|].
  specialize (IH (applyCall s c)).
  assert (Hc : pendingBit (applyCall s c) <=
               pendingBit s + (if isOffer c then 1 else 0)).
  { unfold pendingBit. destruct c as [evt|d|]; simpl.
    - destruct (isNull evt); simpl; destruct (isNull (nextEvent s)); lia.
    - destruct (isNull (nextEvent s)); lia.
    - destruct (isNull (nextEvent s)); lia. }
  destruct (isOffer c); simpl length; lia.
Qed.

Lemma applyCalls_MAX_SLEEP (cs : list Call) (s : Scheduler) :
  existsb isSetMaxSleepCall cs = false ->
  MAX_SLEEP (applyCalls cs s) = MAX_SLEEP s.
Proof.
  unfold applyCalls. revert s.
  induction cs as [|c cs IH]; intros s H; simpl in *; [reflexivity|].
  apply orb_false_iff in H as [Hc H].
  rewrite (IH _ H). destruct c; simpl in *; congruence.
Qed.

Variable W : Type.
Variable env : Env W.

(** What the dispatch step leaves of the scheduler. *)
Lemma dispatchPhase_sched (l : LoopState W) :
  match fst (dispatchPhase env l) with
  | Some _ =>
      isNull (nextEvent (sched l)) = false /\
      sched (snd (dispatchPhase env l)) =
        clearSlot (applyCalls
                     (fst (interface_queue env (nextEvent (sched l)) (world l)))
                     (sched l))
  | None => snd (dispatchPhase env l) = l
  end.
Proof.
  unfold dispatchPhase.
  destruct (isNull (nextEvent (sched l))) eqn:En; simpl; [reflexivity|].
  destruct (isEventTime env (world l) (nextEvent (sched l))); [|reflexivity].
  destruct (interface_queue env (nextEvent (sched l)) (world l)); simpl.
  auto.
Qed.

Lemma iteration_sched (l : LoopState W) :
  sched (snd (fst (iteration env l))) =
    applyCalls (it_calls (fst (fst (iteration env l))))
               (sched (snd (dispatchPhase env l))) /\
  dispatchedIn (fst (fst (iteration env l))) =
    match fst (dispatchPhase env l) with Some _ => true | None => false end.
Proof.
  destruct (iteration_cases env l) as [(_ & _ & E)|[(_ & _ & E)|(_ & E)]];
    rewrite E; split; reflexivity.
Qed.

(** One iteration moves the slot as [slotAfter] tells, and does not
    dispatch more than the slot held. *)
Lemma iteration_slot (l : LoopState W) :
  let e := fst (fst (iteration env l)) in
  let l' := snd (fst (iteration env l)) in
  nextEvent (sched l') =
    lastQueued (it_calls e)
      (if dispatchedIn e then OutputEvent_new else nextEvent (sched l)) /\
  (if dispatchedIn e then 1 else 0) + pendingBit (sched l')
    <= offersIn (it_calls e) + pendingBit (sched l).
Proof.
  intros e l'. subst e l'.
  destruct (iteration_sched l) as [-> ->].
  pose proof (dispatchPhase_sched l) as Hd.
  pose proof (applyCalls_pending
                (it_calls (fst (fst (iteration env l))))
                (sched (snd (dispatchPhase env l)))) as Hp.
  rewrite applyCalls_nextEvent.
  destruct (fst (dispatchPhase env l)) as [x|].
  - destruct Hd as [Hn Hs]. rewrite Hs in *. split; [reflexivity|].
    assert (H0 : forall s0, pendingBit (clearSlot s0) = 0).
    { intro s0. unfold pendingBit. cbn [clearSlot nextEvent].
      now rewrite isNull_new. }
    assert (H1 : pendingBit (sched l) = 1).
    { unfold pendingBit. now rewrite Hn. }
    rewrite H0 in Hp. lia.
  - rewrite Hd in *. split; [reflexivity|]. lia.
Qed.

(** The three shapes of [loop (S fuel) l]. *)
Lemma loop_step (fuel : nat) (l : LoopState W) :
  _doExit (sched l) = false ->
  let e := fst (fst (iteration env l)) in
  let l' := snd (fst (iteration env l)) in
  (snd (iteration env l) = Break /\ loop env (S fuel) l = ([e], l', true)) \/
  (snd (iteration env l) = Next /\
   loop env (S fuel) l =
     (e :: fst (fst (loop env fuel l')), snd (fst (loop env fuel l')),
      snd (loop env fuel l'))).
Proof.
  intros Hx e l'. subst e l'. simpl. rewrite Hx.
  destruct (iteration env l) as [[e l'] o]; simpl.
  destruct o; [right|left; auto].
  destruct (loop env fuel l') as [[es l''] b]; simpl. auto.
Qed.

(** X1, the slot follows the log: after any run of the loop the slot holds
    what the log tells, that is the last event given to [queue] in an idle
    slice since the last dispatch, the event the run started with when
    there was neither, and the empty event when a dispatch came last. *)
Theorem slot_follows_log (fuel : nat) (l : LoopState W) :
  nextEvent (sched (snd (fst (loop env fuel l)))) =
    slotAfter (nextEvent (sched l)) (fst (fst (loop env fuel l))).
Proof.
  revert l. induction fuel as [|fuel IH]; intro l; [reflexivity|].
  destruct (_doExit (sched l)) eqn:Hx; [simpl; rewrite Hx; reflexivity|].
  destruct (iteration_slot l) as [Hs _].
  destruct (loop_step fuel l Hx) as [[_ ->]|[_ ->]]; simpl.
  - exact Hs.
  - rewrite IH, Hs. reflexivity.
Qed.

(** X2, no event is dispatched twice: along any run of the loop, the
    dispatches made, plus one when an event is left in the slot, are at most
    the offers the idle slices made, plus one when the run started with an
    event in the slot. *)
Theorem dispatches_bounded_by_offers (fuel : nat) (l : LoopState W) :
  dispatchCount (fst (fst (loop env fuel l))) +
    pendingBit (sched (snd (fst (loop env fuel l))))
  <= offerCount (fst (fst (loop env fuel l))) + pendingBit (sched l).
Proof.
  revert l. induction fuel as [|fuel IH]; intro l; [simpl; lia|].
  destruct (_doExit (sched l)) eqn:Hx; [simpl; rewrite Hx; simpl; lia|].
  destruct (iteration_slot l) as [_ Hs].
  destruct (loop_step fuel l Hx) as [[_ ->]|[_ ->]]; simpl.
  - lia.
  - specialize (IH (snd (fst (iteration env l)))). lia.
Qed.

(** X3, the event dispatched is the last one offered: the event that the
    [k]-th iteration of a run hands to [interface.queue] is the one the log
    of the iterations before it leaves in the slot, and it is not empty. *)
Theorem dispatched_is_last_offered (fuel : nat) :
  forall (l : LoopState W) (k : nat) (e : Iteration W) (evt : OutputEvent) (w : W),
    nth_error (fst (fst (loop env fuel l))) k = Some e ->
    it_dispatched e = Some (evt, w) ->
    evt = slotAfter (nextEvent (sched l)) (firstn k (fst (fst (loop env fuel l)))) /\
    isNull evt = false.
Proof.
  induction fuel as [|fuel IH]; intros l k e evt w Hk Hd.
  - destruct k; discriminate.
  - destruct (_doExit (sched l)) eqn:Hx.
    { simpl in Hk. rewrite Hx in Hk. destruct k; discriminate. }
    assert (H0 : it_dispatched (fst (fst (iteration env l))) = Some (evt, w) ->
                 evt = nextEvent (sched l) /\ isNull evt = false).
    { destruct (iteration_dispatched env l) as [-> _].
      pose proof (dispatchPhase_due env l) as H.
      intro E. rewrite E in H. tauto. }
    destruct (iteration_slot l) as [Hs _].
    destruct (loop_step fuel l Hx) as [[_ E]|[_ E]]; rewrite E in *; simpl in Hk |- *.
    + destruct k as [|k]; simpl in Hk.
      * injection Hk as <-. simpl. auto.
      * destruct k; discriminate.
    + destruct k as [|k]; simpl in Hk.
      * injection Hk as <-. simpl. auto.
      * destruct (IH _ _ _ _ _ Hk Hd) as [-> Hn].
        split; [|exact Hn]. simpl. now rewrite Hs.
Qed.

(** X4, what the idle slice is told: [isRoomInBuffer()] at the start of
    the idle slice is true exactly when the slot was empty when the
    iteration began or held an event that was due, which the iteration has
    then just dispatched. *)
Theorem room_seen_by_idle_slice (l : LoopState W) :
  it_room (fst (fst (iteration env l))) =
    isNull (nextEvent (sched l)) || isEventTime env (world l) (nextEvent (sched l)) /\
  dispatchedIn (fst (fst (iteration env l))) =
    negb (isNull (nextEvent (sched l))) && isEventTime env (world l) (nextEvent (sched l)).
Proof.
  destruct (iteration_dispatched env l) as [_ ->].
  destruct (iteration_sched l) as [_ ->].
  unfold dispatchPhase, isRoomInBuffer.
  destruct (isNull (nextEvent (sched l))) eqn:En; simpl; [auto|].
  destruct (isEventTime env (world l) (nextEvent (sched l))); simpl.
  - destruct (interface_queue env (nextEvent (sched l)) (world l)); simpl.
    rewrite isNull_new. auto.
  - rewrite En. auto.
Qed.

End SlotProperties.

Section RunProperties.

Context {P : Platform}.
Variable W : Type.
Variable env : Env W.

Lemma dispatchPhase_doExit (l : LoopState W) :
  _doExit (sched (snd (dispatchPhase env l))) =
    _doExit (sched l) ||
    match fst (dispatchPhase env l) with
    | Some _ => existsb isExitCall
                  (fst (interface_queue env (nextEvent (sched l)) (world l)))
    | None => false
    end.
Proof.
  pose proof (dispatchPhase_sched env l) as H.
  destruct (fst (dispatchPhase env l)).
  - destruct H as [_ ->]. cbn [clearSlot _doExit]. apply applyCalls_doExit.
  - rewrite H. now rewrite orb_false_r.
Qed.

(** The calls the idle slice of an iteration made are those the interface
    returned for some interval, room flag and world. *)
Lemma iteration_calls (l : LoopState W) :
  exists i r w,
    it_calls (fst (fst (iteration env l))) =
      snd (fst (interface_onIdleCpu env i r w)) /\
    it_result (fst (fst (iteration env l))) =
      fst (fst (interface_onIdleCpu env i r w)) /\
    world (snd (dispatchPhase env l)) = w.
Proof.
  exists (intervalT (snd (dispatchPhase env l))),
         (isRoomInBuffer (sched (snd (dispatchPhase env l)))),
         (world (snd (dispatchPhase env l))).
  destruct (iteration_cases env l) as [(Hr & _ & E)|[(Hr & _ & E)|(Hr & E)]];
    rewrite E; simpl; rewrite Hr; auto.
Qed.

(** An iteration that ends with the exit flag set is the last one, and it
    does not sleep. *)
Lemma loop_exits_when_flag_set (fuel : nat) (l : LoopState W) :
  _doExit (sched l) = false ->
  _doExit (sched (snd (fst (iteration env l)))) = true ->
  loop env (S (S fuel)) l =
    ([fst (fst (iteration env l))], snd (fst (iteration env l)), true) /\
  it_slept (fst (fst (iteration env l))) = None.
Proof.
  intros Hrun Hx. split.
  - destruct (loop_step env (S fuel) l Hrun) as [[_ E]|[_ E]]; [exact E|].
    rewrite E. simpl. rewrite Hx. reflexivity.
  - destruct (iteration_cases env l) as [(_ & _ & E)|[(_ & Hn & E)|(_ & E)]];
      rewrite E in *; simpl in *; try reflexivity.
    congruence.
Qed.

(** The loop condition is the only way out besides the break, and the break
    is taken only with the exit flag set. *)
Lemma iteration_break (l : LoopState W) :
  snd (iteration env l) = Break ->
  _doExit (sched (snd (fst (iteration env l)))) = true.
Proof.
  destruct (iteration_cases env l) as [(_ & Hx & E)|[(_ & _ & E)|(_ & E)]];
    rewrite E; simpl; [auto|discriminate|discriminate].
Qed.

(** X5, no return without cancellation: when neither the dispatch handler
    nor the idle slice of the interface ever calls [exitEventLoop], a loop
    entered with the exit flag unset is still running after any number of
    iterations: it has run one iteration per unit of fuel and [eventLoop]
    has not returned. *)
Theorem loop_runs_until_cancelled (fuel : nat) :
  (forall evt w, existsb isExitCall (fst (interface_queue env evt w)) = false) ->
  (forall i r w,
     existsb isExitCall (snd (fst (interface_onIdleCpu env i r w))) = false) ->
  forall l : LoopState W,
    _doExit (sched l) = false ->
    snd (loop env fuel l) = false /\
    length (fst (fst (loop env fuel l))) = fuel /\
    _doExit (sched (snd (fst (loop env fuel l)))) = false /\
    (forall s w, l = enter s w -> eventLoop env fuel s w = None).
Proof.
  intros Hq Hi.
  assert (Hloop : forall l : LoopState W,
            _doExit (sched l) = false ->
            snd (loop env fuel l) = false /\
            length (fst (fst (loop env fuel l))) = fuel /\
            _doExit (sched (snd (fst (loop env fuel l)))) = false).
  { induction fuel as [|fuel' IH]; intros l Hx; [simpl; auto|].
    assert (Hx' : _doExit (sched (snd (fst (iteration env l)))) = false).
    { rewrite iteration_doExit, dispatchPhase_doExit, Hx.
      destruct (iteration_calls l) as (i & r & w & -> & _).
      rewrite Hi, orb_false_r. simpl.
      destruct (fst (dispatchPhase env l)); [apply Hq|reflexivity]. }
    destruct (loop_step env fuel' l Hx) as [[Hb _]|[_ ->]].
    - apply iteration_break in Hb. congruence.
    - simpl. destruct (IH _ Hx') as (H1 & H2 & H3). auto. }
  intros l Hx. destruct (Hloop l Hx) as (H1 & H2 & H3).
  repeat split; try assumption.
  intros s w ->. unfold eventLoop.
  destruct (loop env fuel (enter s w)) as [[es l'] b]; simpl in H1.
  now rewrite H1.
Qed.

(** X6, cancellation from the dispatch handler: when the event in the slot
    is due and [interface.queue] calls [exitEventLoop] while handling it,
    the iteration still runs its idle slice, with the slot already reset,
    and is the last one; the loop is left without a sleep. *)
Theorem cancel_in_dispatch (fuel : nat) (l : LoopState W) :
  _doExit (sched l) = false ->
  isNull (nextEvent (sched l)) = false ->
  interface_schedTime env (world l) (time (nextEvent (sched l)))
    <= EventClockT_now env (world l) ->
  existsb isExitCall
    (fst (interface_queue env (nextEvent (sched l)) (world l))) = true ->
  loop env (S (S fuel)) l =
    ([fst (fst (iteration env l))], snd (fst (iteration env l)), true) /\
  it_dispatched (fst (fst (iteration env l))) = Some (nextEvent (sched l), world l) /\
  it_room (fst (fst (iteration env l))) = true /\
  it_slept (fst (fst (iteration env l))) = None.
Proof.
  intros Hrun Hn Hdue Hcall.
  assert (Hd : fst (dispatchPhase env l) = Some (nextEvent (sched l), world l)).
  { unfold dispatchPhase, isEventTime. rewrite Hn.
    apply Z.leb_le in Hdue. rewrite Hdue. simpl.
    now destruct (interface_queue env (nextEvent (sched l)) (world l)). }
  assert (Hx : _doExit (sched (snd (fst (iteration env l)))) = true).
  { rewrite iteration_doExit, dispatchPhase_doExit, Hd, Hcall.
    now rewrite orb_true_r. }
  destruct (loop_exits_when_flag_set fuel l Hrun Hx) as [H1 H2].
  destruct (iteration_dispatched env l) as [H3 H4].
  repeat split; try assumption.
  - now rewrite H3.
  - rewrite H4. pose proof (dispatchPhase_sched env l) as H.
    rewrite Hd in H. destruct H as [_ ->].
    unfold isRoomInBuffer. cbn [clearSlot nextEvent]. apply isNull_new.
Qed.

Lemma iteration_MAX_SLEEP (l : LoopState W) :
  (forall evt w, existsb isSetMaxSleepCall (fst (interface_queue env evt w)) = false) ->
  (forall i r w,
     existsb isSetMaxSleepCall (snd (fst (interface_onIdleCpu env i r w))) = false) ->
  MAX_SLEEP (sched (snd (fst (iteration env l)))) = MAX_SLEEP (sched l) /\
  sleptWithin env (MAX_SLEEP (sched l)) (fst (fst (iteration env l))).
Proof.
  intros Hq Hi.
  assert (Hm : MAX_SLEEP (sched (snd (fst (iteration env l)))) = MAX_SLEEP (sched l)).
  { destruct (iteration_sched env l) as [-> _].
    destruct (iteration_calls l) as (i & r & w & -> & _).
    rewrite applyCalls_MAX_SLEEP by apply Hi.
    pose proof (dispatchPhase_sched env l) as H.
    destruct (fst (dispatchPhase env l)).
    - destruct H as [_ ->]. cbn [clearSlot MAX_SLEEP].
      apply applyCalls_MAX_SLEEP, Hq.
    - now rewrite H. }
  split; [exact Hm|].
  destruct (iteration_slept env l) as (Hs & _ & Hw).
  unfold sleptWithin, sleptAsComputed in *.
  destruct (it_slept (fst (fst (iteration env l)))) as [[[s w] d]|]; [|exact I].
  destruct Hw as (Hw & _). destruct Hs as (_ & _ & _ & Hd).
  rewrite <- Hm, Hw. auto.
Qed.

(** X7, the sleep ceiling is kept: when the interface never calls
    [setMaxSleep], the loop leaves [MAX_SLEEP] as it found it, and every
    sleep of the run ends at most [MAX_SLEEP] after the time it began. *)
Theorem sleep_ceiling_kept (fuel : nat) :
  (forall evt w, existsb isSetMaxSleepCall (fst (interface_queue env evt w)) = false) ->
  (forall i r w,
     existsb isSetMaxSleepCall (snd (fst (interface_onIdleCpu env i r w))) = false) ->
  forall l : LoopState W,
    MAX_SLEEP (sched (snd (fst (loop env fuel l)))) = MAX_SLEEP (sched l) /\
    Forall (sleptWithin env (MAX_SLEEP (sched l))) (fst (fst (loop env fuel l))).
Proof.
  intros Hq Hi.
  induction fuel as [|fuel' IH]; intro l; [simpl; auto|].
  destruct (_doExit (sched l)) eqn:Hx; [simpl; rewrite Hx; simpl; auto|].
  destruct (iteration_MAX_SLEEP l Hq Hi) as [Hm Hs].
  destruct (loop_step env fuel' l Hx) as [[_ ->]|[_ ->]]; simpl.
  - auto.
  - destruct (IH (snd (fst (iteration env l)))) as [H1 H2].
    rewrite Hm in H1, H2. auto.
Qed.

End RunProperties.

Section ProgressProperties.

Context {P : Platform}.
Variable W : Type.
Variable env : Env W.



(** In a log, an entry that is followed by another one slept exactly when
    its idle slice returned false. *)
Lemma nonlast_slept (fuel : nat) :
  forall (l : LoopState W) (k : nat) (e e' : Iteration W),
    nth_error (fst (fst (loop env fuel l))) k = Some e ->
    nth_error (fst (fst (loop env fuel l))) (S k) = Some e' ->
    sleptIn e = negb (it_result e).
Proof.
  induction fuel as [|fuel IH]; intros l k e e' Hk Hk'.
  - destruct k; discriminate.
  - destruct (_doExit (sched l)) eqn:Hx.
    { simpl in Hk. rewrite Hx in Hk. destruct k; discriminate. }
    destruct (loop_step env fuel l Hx) as [[_ E]|[Ho E]]; rewrite E in *;
      simpl in Hk, Hk'.
    + destruct k; discriminate.
    + destruct k as [|k]; simpl in Hk, Hk'.
      * injection Hk as <-.
        destruct (iteration_cases env l) as [(_ & _ & E')|[(_ & _ & E')|(_ & E')]];
          rewrite E' in *; simpl in *; try reflexivity; discriminate.
      * exact (IH _ _ _ _ Hk Hk').
Qed.

Lemma nth_error_consecutive (A : Type) (l : list A) :
  forall k x y, nth_error l k = Some x -> nth_error l (S k) = Some y ->
    exists pre post, l = pre ++ x :: y :: post.
Proof.
  induction l as [|z l IH]; intros [|k] x y Hx Hy; simpl in *; try discriminate.
  - injection Hx as ->. destruct l as [|y' l]; [discriminate|].
    simpl in Hy. injection Hy as ->. exists [], l. reflexivity.
  - destruct (IH k x y Hx Hy) as (pre & post & ->).
    exists (z :: pre), post. reflexivity.
Qed.

(** X9, which interval an idle slice is called with: the first slice of a
    run is called with Wide; a later one is called with what the iteration
    before it left, which is Wide exactly when the slice before returned
    false, in which case the loop slept in between, or when the counter of
    true results had come to a multiple of 2048. *)
Theorem interval_follows_result (fuel : nat) (s : Scheduler) (w : W)
    (k : nat) (e e' : Iteration W) :
  nth_error (runLog env fuel s w) k = Some e ->
  nth_error (runLog env fuel s w) (S k) = Some e' ->
  it_interval e' = it_next e /\
  isWide (it_interval e') = negb (it_result e) || (Z.rem (it_count e) 2048 =? 0) /\
  sleptIn e = negb (it_result e) /\
  match runLog env fuel s w with
  | e0 :: _ => it_interval e0 = OnIdleCpuIntervalWide
  | [] => True
  end.
Proof.
  intros Hk Hk'.
  pose proof (nonlast_slept fuel (enter s w) k Hk Hk') as Hs.
  pose proof (runLog_chained env fuel s w) as Hc.
  assert (H0 : match runLog env fuel s w with
               | e0 :: _ => it_interval e0 = OnIdleCpuIntervalWide
               | [] => True
               end).
  { destruct (runLog env fuel s w); [exact I|]. simpl in Hc. tauto. }
  destruct (nth_error_consecutive _ _ Hk Hk') as (pre & post & Hlog).
  rewrite Hlog in Hc. apply chained_skip in Hc as (i & Hc & _).
  cbn [chained] in Hc. destruct Hc as (_ & Hstep & Hi' & _).
  assert (Hw : isWide (it_next e) =
               negb (it_result e) || (Z.rem (it_count e) 2048 =? 0)).
  { destruct (it_result e); simpl.
    - destruct Hstep as [-> ->].
      now destruct (Z.rem (wrap32 (0 + trueCount pre + 1)) 2048 =? 0).
    - destruct Hstep as [_ [->|[Hnil _]]]; [reflexivity|discriminate]. }
  rewrite Hi'. auto.
Qed.

(** In a run of calls that were all made with Short, no number of true
    results reached before a call is a multiple of 2048. *)
Lemma short_calls_no_multiple (win post : list (Iteration W)) :
  forall i n,
    chained i n (win ++ post) ->
    wideAtMultiple i n ->
    existsb (fun e => isWide (it_interval e)) win = false ->
    forall j, 0 <= j < Z.of_nat (length win) -> (n + j) mod 2048 <> 0.
Proof.
  induction win as [|e win IH]; intros i n H HJ Hs j Hj; [simpl in Hj; lia|].
  cbn [app chained] in H. destruct H as (Hi & Hstep & Hrest).
  cbn [existsb] in Hs. apply orb_false_iff in Hs as [Hs0 Hs].
  assert (Hn : n mod 2048 <> 0).
  { intro Hm. apply HJ in Hm. rewrite Hi, Hm in Hs0. discriminate. }
  destruct (Z.eq_dec j 0) as [->|Hj0]; [now rewrite Z.add_0_r|].
  destruct win as [|e' win']; [simpl in Hj; lia|].
  assert (Hr : it_result e = true).
  { destruct (it_result e) eqn:Hr; [reflexivity|exfalso].
    cbn [app chained] in Hrest. destruct Hrest as (Hi' & _).
    cbn [existsb] in Hs. apply orb_false_iff in Hs as [Hs1 _].
    destruct Hstep as [_ [Hw|[Hnil _]]]; [|discriminate].
    rewrite Hi', Hw in Hs1. discriminate. }
  rewrite Hr in *.
  replace (n + j) with (n + 1 + (j - 1)) by lia.
  apply (IH _ _ Hrest); auto.
  - intro Hm. destruct Hstep as [_ ->]. rewrite rem_wrap32.
    apply Z.eqb_eq in Hm. now rewrite Hm.
  - cbn [length] in *. lia.
Qed.

(** X10, a Wide call in every 2048: among any 2048 consecutive calls of
    [onIdleCpu] in a run of [eventLoop], whatever they return, at least one
    is made with the Wide interval. *)
Theorem wide_call_every_2048 (fuel : nat) (s : Scheduler) (w : W) (k : nat) :
  let win := firstn 2048 (skipn k (runLog env fuel s w)) in
  length win = 2048%nat ->
  existsb (fun e => isWide (it_interval e)) win = true.
Proof.
  intros win Hlen.
  set (pre := firstn k (runLog env fuel s w)).
  set (post := skipn 2048 (skipn k (runLog env fuel s w))).
  assert (Hlog : runLog env fuel s w = pre ++ win ++ post).
  { unfold pre, win, post. now rewrite !firstn_skipn. }
  pose proof (runLog_chained env fuel s w) as Hc. rewrite Hlog in Hc.
  apply chained_skip in Hc as (i & Hw & HJ).
  assert (Hne : win ++ post <> []).
  { destruct win; [discriminate|]. discriminate. }
  specialize (HJ Hne (fun _ => eq_refl)). simpl in Hw, HJ.
  destruct (existsb _ win) eqn:Ex; [reflexivity|exfalso].
  apply (@short_calls_no_multiple win post _ _ Hw HJ Ex ((- trueCount pre) mod 2048)).
  - rewrite Hlen. pose proof (Z.mod_pos_bound (- trueCount pre) 2048). lia.
  - rewrite Zplus_mod_idemp_r.
    replace (trueCount pre + - trueCount pre) with 0 by lia. reflexivity.
Qed.

Lemma trueCount_bounds (es : list (Iteration W)) :
  0 <= trueCount es <= Z.of_nat (length es).
Proof.
  induction es as [|e es IH]; cbn [trueCount length]; [lia|].
  destruct (it_result e); lia.
Qed.

(** X11, the counter before it can overflow: during the first 2^31 - 1
    iterations of a run, [numShortIntervals] is exactly the number of idle
    slices that have returned true, between 0 and the number of
    iterations made; no wrap-around of the [int] is involved. *)
Theorem counter_exact_before_overflow (fuel : nat) (s : Scheduler) (w : W)
    (k : nat) (e : Iteration W) :
  nth_error (runLog env fuel s w) k = Some e ->
  Z.of_nat k < 2 ^ 31 - 1 ->
  it_count e = trueCount (firstn (S k) (runLog env fuel s w)) /\
  0 <= it_count e <= Z.of_nat (S k).
Proof.
  intros Hk Hlt.
  destruct (counter_at_index env fuel s w k Hk) as (Hc & _).
  pose proof (trueCount_bounds (firstn (S k) (runLog env fuel s w))) as Hb.
  pose proof (firstn_le_length (S k) (runLog env fuel s w)) as Hl.
  assert (Hw : wrap32 (trueCount (firstn (S k) (runLog env fuel s w)))
               = trueCount (firstn (S k) (runLog env fuel s w))).
  { unfold wrap32. rewrite Z.mod_small; lia. }
  rewrite Hw in Hc. lia.
Qed.

End ProgressProperties.

(** * Properties of the test driver *)

Section TestDriverProperties.

Import Ascii String.

Lemma append_assoc3 (s1 s2 s3 : string) :
  append (append s1 s2) s3 = append s1 (append s2 s3).
Proof. induction s1 as [|c s1 IH]; simpl; [reflexivity|now rewrite IH]. Qed.

Lemma append_empty_r (s : string) : append s EmptyString = s.
Proof. induction s as [|c s IH]; simpl; [reflexivity|now rewrite IH]. Qed.

(** Once [curChar] is the newline the loop is over. *)
Lemma readLine_loop_done (polls : list (option ascii)) (read : string) :
  readLine_loop polls newline read = Some (read, polls).
Proof. destruct polls; reflexivity. Qed.

Lemma readLine_loop_frames (pre rest : list (option ascii)) :
  forall cur acc,
    Ascii.eqb cur newline = false ->
    existsb isNewlinePoll pre = false ->
    readLine_loop (pre ++ Some newline :: rest) cur acc
      = Some (append acc (chars pre), rest).
Proof.
  induction pre as [|p pre IH]; intros cur acc Hc Hp.
  - cbn [app readLine_loop chars]. rewrite Hc.
    rewrite Ascii.eqb_refl. cbn [negb].
    now rewrite readLine_loop_done, append_empty_r.
  - cbn [existsb] in Hp. apply orb_false_iff in Hp as [Hp0 Hp].
    cbn [app readLine_loop]. rewrite Hc.
    destruct p as [c|]; cbn [isNewlinePoll] in Hp0.
    + rewrite Hp0. cbn [negb chars].
      rewrite (IH c _ Hp0 Hp), append_assoc3. reflexivity.
    + cbn [chars]. apply (IH cur acc Hc Hp).
Qed.

(** X12, reading back a line: when the characters delivered up to the first
    newline are [chars pre], with any number of empty polls in between,
    [readLine] returns exactly these characters, without the newline, and
    leaves what follows the newline unread. *)
Theorem readLine_frames (pre rest : list (option ascii)) :
  existsb isNewlinePoll pre = false ->
  readLine (pre ++ Some newline :: rest) = Some (chars pre, rest).
Proof.
  intro Hp. unfold readLine.
  now rewrite (readLine_loop_frames pre rest zero EmptyString eq_refl Hp).
Qed.

Lemma readLine_loop_sound (polls : list (option ascii)) :
  forall cur acc line rest,
    Ascii.eqb cur newline = false ->
    readLine_loop polls cur acc = Some (line, rest) ->
    exists pre,
      polls = pre ++ Some newline :: rest /\
      line = append acc (chars pre) /\
      existsb isNewlinePoll pre = false.
Proof.
  induction polls as [|p polls IH]; intros cur acc line rest Hc H;
    cbn [readLine_loop] in H; rewrite Hc in H; [discriminate|].
  destruct p as [c|].
  - destruct (Ascii.eqb c newline) eqn:Ec; cbn [negb] in H.
    + apply Ascii.eqb_eq in Ec. subst c.
      rewrite readLine_loop_done in H. injection H as <- <-.
      exists []. now rewrite append_empty_r.
    + destruct (IH _ _ _ _ Ec H) as (pre & -> & -> & Hp).
      exists (Some c :: pre). cbn [app chars existsb isNewlinePoll].
      rewrite Ec, append_assoc3. auto.
  - destruct (IH _ _ _ _ Hc H) as (pre & -> & -> & Hp).
    exists (None :: pre). auto.
Qed.

(** X13, what a line read is: when [readLine] returns, a newline was
    delivered, the line is made of the characters delivered before the
    first newline, so it contains none, and the polls left are those after
    that newline. *)
Theorem readLine_sound (polls rest : list (option ascii)) (line : string) :
  readLine polls = Some (line, rest) ->
  exists pre,
    polls = pre ++ Some newline :: rest /\
    line = chars pre /\
    existsb isNewlinePoll pre = false.
Proof.
  intro H.
  destruct (readLine_loop_sound polls zero EmptyString eq_refl H)
    as (pre & Hp & Hl & Hn).
  exists pre. auto.
Qed.

Lemma readLine_loop_waits (polls : list (option ascii)) :
  forall cur acc,
    Ascii.eqb cur newline = false ->
    match readLine_loop polls cur acc with
    | Some _ => existsb isNewlinePoll polls = true
    | None => existsb isNewlinePoll polls = false
    end.
Proof.
  induction polls as [|p polls IH]; intros cur acc Hc;
    cbn [readLine_loop]; rewrite Hc; [reflexivity|].
  destruct p as [c|]; cbn [existsb isNewlinePoll].
  - destruct (Ascii.eqb c newline) eqn:Ec; cbn [negb orb].
    + apply Ascii.eqb_eq in Ec. subst c.
      now rewrite readLine_loop_done.
    + apply IH, Ec.
  - cbn [orb]. apply IH, Hc.
Qed.

(** X14, waiting for the newline: [readLine] is still in its loop when the
    polls run out exactly when no newline has been delivered; empty polls
    and other characters never end it. *)
Theorem readLine_waits (polls : list (option ascii)) :
  match readLine polls with
  | Some _ => existsb isNewlinePoll polls = true
  | None => existsb isNewlinePoll polls = false
  end.
Proof. apply readLine_loop_waits. reflexivity. Qed.

(** X15, the acknowledgement test of [sendCommand]: the comparison of
    [got.substr(0, expect.length())] with [expect] succeeds exactly when
    [got] begins with [expect]; a reply shorter than [expect] fails it and
    an empty [expect] is met by every reply. *)
Theorem acknowledged_iff_prefix (got expect : string) :
  acknowledged got expect = true <-> exists tail, got = append expect tail.
Proof.
  unfold acknowledged. rewrite String.eqb_eq.
  revert got. induction expect as [|c expect IH]; intro got.
  - split; [intros _; exists got; reflexivity|intros _].
    destruct got; reflexivity.
  - destruct got as [|g got]; cbn [String.length substring append].
    + split; [discriminate|]. intros [tail H]. discriminate.
    + split.
      * intros [= -> H]. apply IH in H as [tail ->]. now exists tail.
      * intros [tail [= -> ->]]. f_equal. apply IH. now exists tail.
Qed.

Lemma readLine_frames_witness :
  let pre := [Some (ascii_of_nat 111); None; Some (ascii_of_nat 107)] in
  let rest := [Some (ascii_of_nat 33)] in
  existsb isNewlinePoll pre = false /\
  readLine (pre ++ Some newline :: rest) = Some (chars pre, rest).
Proof.
  intros pre rest.
  assert (H : existsb isNewlinePoll pre = false) by reflexivity.
  split; [exact H|]. exact (readLine_frames pre rest H).
Defined.

Lemma readLine_sound_witness :
  let polls := [None; Some (ascii_of_nat 111); Some (ascii_of_nat 107);
                Some newline; Some (ascii_of_nat 33)] in
  let line := String (ascii_of_nat 111) (String (ascii_of_nat 107) EmptyString) in
  let rest := [Some (ascii_of_nat 33)] in
  readLine polls = Some (line, rest) /\
  exists pre,
    polls = pre ++ Some newline :: rest /\
    line = chars pre /\
    existsb isNewlinePoll pre = false.
Proof.
  intros polls line rest.
  assert (H : readLine polls = Some (line, rest)) by reflexivity.
  split; [exact H|]. exact (readLine_sound polls H).
Defined.

End TestDriverProperties.

(** * The further properties at work *)

Section MoreRuns.

#[local] Existing Instance testPlatform.

(** Of two events offered in one idle slice, the second is the one
    dispatched and the first is never. *)
Example double_offer_run :
  map (fun e => match it_dispatched e with Some (evt, _) => evt | None => None end)
      (runLog testEnv 4 Scheduler_new (testWorld doubleOfferScript))
    = [None; Some (0, 2); None; None].
Proof. vm_compute. reflexivity. Qed.

Lemma dispatched_is_last_offered_witness :
  let l := enter Scheduler_new (testWorld doubleOfferScript) in
  let log := fst (fst (loop testEnv 2 l)) in
  let w := mkTestWorld 1 [(false, [])] [] in
  let e := mkIteration (Some (Some (0, 2), w)) true OnIdleCpuIntervalShort false []
             (Some (Scheduler_new, mkTestWorld 2 [] [Some (0, 2)], 40002))
             OnIdleCpuIntervalWide 1 in
  (nth_error log 1 = Some e /\ it_dispatched e = Some (Some (0, 2), w)) /\
  Some (0, 2) = slotAfter (nextEvent (sched l)) (firstn 1 log) /\
  isNull (Some (0, 2)) = false.
Proof.
  intros l log w e.
  assert (H1 : nth_error log 1 = Some e) by reflexivity.
  assert (H2 : it_dispatched e = Some (Some (0, 2), w)) by reflexivity.
  split; [exact (conj H1 H2)|].
  exact (dispatched_is_last_offered testEnv 2 l 1 H1 H2).
Defined.

Lemma loop_runs_until_cancelled_witness :
  let l := enter Scheduler_new 0 in
  ((forall evt w, existsb isExitCall (fst (interface_queue quietEnv evt w)) = false) /\
   (forall i r w,
      existsb isExitCall (snd (fst (interface_onIdleCpu quietEnv i r w))) = false) /\
   _doExit (sched l) = false) /\
  snd (loop quietEnv 5 l) = false /\
  length (fst (fst (loop quietEnv 5 l))) = 5%nat /\
  _doExit (sched (snd (fst (loop quietEnv 5 l)))) = false /\
  (forall s w, l = enter s w -> eventLoop quietEnv 5 s w = None).
Proof.
  intro l.
  assert (H1 : forall evt w,
            existsb isExitCall (fst (interface_queue quietEnv evt w)) = false)
    by reflexivity.
  assert (H2 : forall i r w,
            existsb isExitCall (snd (fst (interface_onIdleCpu quietEnv i r w))) = false)
    by reflexivity.
  assert (H3 : _doExit (sched l) = false) by reflexivity.
  split; [exact (conj H1 (conj H2 H3))|].
  exact (loop_runs_until_cancelled quietEnv 5 H1 H2 l H3).
Defined.

Lemma cancel_in_dispatch_witness :
  let env := callingEnv [CallExitEventLoop] in
  let l := enter (pendingAt 0) (testWorld []) in
  (_doExit (sched l) = false /\
   isNull (nextEvent (sched l)) = false /\
   interface_schedTime env (world l) (time (nextEvent (sched l)))
     <= EventClockT_now env (world l) /\
   existsb isExitCall
     (fst (interface_queue env (nextEvent (sched l)) (world l))) = true) /\
  loop env 2 l =
    ([fst (fst (iteration env l))], snd (fst (iteration env l)), true) /\
  it_dispatched (fst (fst (iteration env l))) = Some (nextEvent (sched l), world l) /\
  it_room (fst (fst (iteration env l))) = true /\
  it_slept (fst (fst (iteration env l))) = None.
Proof.
  intros env l.
  assert (H1 : _doExit (sched l) = false) by reflexivity.
  assert (H2 : isNull (nextEvent (sched l)) = false) by reflexivity.
  assert (H3 : interface_schedTime env (world l) (time (nextEvent (sched l)))
               <= EventClockT_now env (world l)) by (vm_compute; discriminate).
  assert (H4 : existsb isExitCall
                 (fst (interface_queue env (nextEvent (sched l)) (world l))) = true)
    by reflexivity.
  split; [exact (conj H1 (conj H2 (conj H3 H4)))|].
  exact (cancel_in_dispatch env 0 l H1 H2 H3 H4).
Defined.

Lemma sleep_ceiling_kept_witness :
  let l := enter (pendingAt 100000) 0 in
  ((forall evt w,
      existsb isSetMaxSleepCall (fst (interface_queue quietEnv evt w)) = false) /\
   (forall i r w,
      existsb isSetMaxSleepCall (snd (fst (interface_onIdleCpu quietEnv i r w))) = false)) /\
  MAX_SLEEP (sched (snd (fst (loop quietEnv 4 l)))) = MAX_SLEEP (sched l) /\
  Forall (sleptWithin quietEnv (MAX_SLEEP (sched l))) (fst (fst (loop quietEnv 4 l))).
Proof.
  intro l.
  assert (H1 : forall evt w,
            existsb isSetMaxSleepCall (fst (interface_queue quietEnv evt w)) = false)
    by reflexivity.
  assert (H2 : forall i r w,
            existsb isSetMaxSleepCall
              (snd (fst (interface_onIdleCpu quietEnv i r w))) = false)
    by reflexivity.
  split; [exact (conj H1 H2)|].
  exact (sleep_ceiling_kept quietEnv 4 H1 H2 l).
Defined.


Lemma interval_follows_result_witness :
  let sc := [(true, []); (false, []); (true, [])] in
  let log := runLog testEnv 3 Scheduler_new (testWorld sc) in
  let e := mkIteration None true OnIdleCpuIntervalWide true [] None
             OnIdleCpuIntervalShort 1 in
  let e' := mkIteration None true OnIdleCpuIntervalShort false []
              (Some (Scheduler_new, mkTestWorld 2 [(true, [])] [], 40002))
              OnIdleCpuIntervalWide 1 in
  (nth_error log 0 = Some e /\ nth_error log 1 = Some e') /\
  it_interval e' = it_next e /\
  isWide (it_interval e') = negb (it_result e) || (Z.rem (it_count e) 2048 =? 0) /\
  sleptIn e = negb (it_result e) /\
  match log with
  | e0 :: _ => it_interval e0 = OnIdleCpuIntervalWide
  | [] => True
  end.
Proof.
  intros sc log e e'.
  assert (H1 : nth_error log 0 = Some e) by reflexivity.
  assert (H2 : nth_error log 1 = Some e') by reflexivity.
  split; [exact (conj H1 H2)|].
  exact (interval_follows_result testEnv 3 Scheduler_new (testWorld sc) 0 H1 H2).
Defined.

Lemma wide_call_every_2048_witness :
  let win := firstn 2048 (skipn 1
               (runLog testEnv 2050 Scheduler_new (testWorld burstScript))) in
  length win = 2048%nat /\
  existsb (fun e => isWide (it_interval e)) win = true.
Proof.
  intro win.
  assert (H : length win = 2048%nat) by (vm_compute; reflexivity).
  split; [exact H|].
  exact (wide_call_every_2048 testEnv 2050 Scheduler_new (testWorld burstScript) 1 H).
Defined.

Lemma counter_exact_before_overflow_witness :
  let sc := [(true, []); (false, []); (true, [])] in
  let log := runLog testEnv 3 Scheduler_new (testWorld sc) in
  let e := mkIteration None true OnIdleCpuIntervalWide true [] None
             OnIdleCpuIntervalShort 2 in
  (nth_error log 2 = Some e /\ Z.of_nat 2 < 2 ^ 31 - 1) /\
  it_count e = trueCount (firstn 3 log) /\
  0 <= it_count e <= Z.of_nat 3.
Proof.
  intros sc log e.
  assert (H1 : nth_error log 2 = Some e) by reflexivity.
  assert (H2 : Z.of_nat 2 < 2 ^ 31 - 1) by reflexivity.
  split; [exact (conj H1 H2)|].
  exact (counter_exact_before_overflow testEnv 3 Scheduler_new (testWorld sc) 2 H1 H2).
Defined.

End MoreRuns.
